(** * Grid path search of [autonomous_parking.py]

    A shallow embedding of [heuristic], [get_neighbors], [astar],
    [create_parking_lot] and the block under [if __name__ == "__main__":],
    and the properties of the search that can be stated over it.
    [plot_parking] only draws with matplotlib and is left out.

    Modelling choices, all local to this file:
    - a cell is a pair of Python integers, hence [Z * Z];
    - a [numpy] 2-D array is its shape and an element function; an index
      expression [grid[i, j]] follows numpy: an index in [-n, n) is accepted
      (a negative one counts from the end), anything else raises
      [IndexError];
    - the costs are Python floats built from [0], the step lengths
      [sqrt 1] and [sqrt 2] and the octile estimate.  They are modelled
      exactly, as elements [a + b * sqrt 2] of the ring Z[sqrt 2], with the
      order decided on the integer coefficients.  Rounding of float64 is not
      modelled: two priorities that are equal as real numbers are equal
      here, while their float64 values may differ in the last place, so
      that among paths of equal cost the one returned here need not be the
      one CPython returns;
    - [heapq] is modelled by its contract: the heap is a bag of entries,
      [heappop] removes the least entry for Python's tuple order;
    - the two [while] loops take fuel; running out of it is the outcome
      [OutOfFuel], and the termination theorem bounds the fuel needed. *)

From Stdlib Require Import ZArith List Lia Reals Lra Psatz Permutation.
From stdpp Require Import gmap sorting.
Local Open Scope Z_scope.

(** * The embedding *)

(** ** Exact arithmetic on [a + b * sqrt 2] *)

Module Surd.

Record t : Type := mk { rat : Z; irr : Z }.

Definition of_Z (n : Z) : t := mk n 0.
Definition zero : t := of_Z 0.
Definition sqrt2 : t := mk 0 1.
Definition add (x y : t) : t := mk (rat x + rat y) (irr x + irr y).
Definition sub (x y : t) : t := mk (rat x - rat y) (irr x - irr y).
Definition mul (x y : t) : t :=
  mk (rat x * rat y + 2 * (irr x * irr y)) (rat x * irr y + irr x * rat y).

(** [pos x] decides [0 < a + b * sqrt 2] by the signs of [a] and [b] and,
    when they differ, by comparing [a * a] with [2 * b * b]. *)
Definition pos (x : t) : bool :=
  let a := rat x in
  let b := irr x in
  if (0 <=? a) && (0 <=? b) then negb ((a =? 0) && (b =? 0))
  else if (a <=? 0) && (b <=? 0) then false
  else if 0 <? a then 2 * (b * b) <? a * a
  else a * a <? 2 * (b * b).

Definition ltb (x y : t) : bool := pos (sub y x).
Definition eqb (x y : t) : bool := (rat x =? rat y) && (irr x =? irr y).

Definition lt (x y : t) : Prop := ltb x y = true.
Definition le (x y : t) : Prop := ltb y x = false.

(** The real number an element stands for. *)
Definition toR (x : t) : R := (IZR (rat x) + IZR (irr x) * sqrt 2)%R.

End Surd.

(** ** Cells, grids and outcomes *)

Abbreviation cell := (Z * Z)%type (only parsing).

(** A 2-D [numpy] array of integers: [grid.shape] and the elements, the
    element of row [i] and column [j] being [item i j] for indices below
    the shape. *)
Record ndarray : Type := Grid {
  shape0 : nat;
  shape1 : nat;
  item : nat -> nat -> Z
}.

(** The array whose rows are the given lists. *)
Definition of_rows (rows : list (list Z)) : ndarray :=
  Grid (length rows) (length (hd [] rows))
       (fun i j => nth j (nth i rows []) 0).

Inductive exn : Type := IndexError | KeyError.

Inductive outcome (A : Type) : Type :=
| Return (a : A)
| Raise (e : exn)
| OutOfFuel.
Arguments Return {A} a.
Arguments Raise {A} e.
Arguments OutOfFuel {A}.

Global Instance outcome_ret : MRet outcome := fun A a => Return a.
Global Instance outcome_bind : MBind outcome := fun A B f m =>
  match m with
  | Return a => f a
  | Raise e => Raise e
  | OutOfFuel => OutOfFuel
  end.

(** A computation that reads the grid: the index pairs it has used, in
    order, and its outcome. *)
Record io (A : Type) : Type := IO {
  reads : list (Z * Z);
  result : outcome A
}.
Arguments IO {A} reads result.
Arguments reads {A} _.
Arguments result {A} _.

Global Instance io_ret : MRet io := fun A a => IO [] (Return a).
Global Instance io_bind : MBind io := fun A B f m =>
  match result m with
  | Return a => IO (reads m ++ reads (f a)) (result (f a))
  | Raise e => IO (reads m) (Raise e)
  | OutOfFuel => IO (reads m) OutOfFuel
  end.

(** numpy's treatment of one index against a dimension [n]. *)
Definition norm_index (n : nat) (i : Z) : option nat :=
  if (0 <=? i) && (i <? Z.of_nat n) then Some (Z.to_nat i)
  else if (- Z.of_nat n <=? i) && (i <? 0) then Some (Z.to_nat (i + Z.of_nat n))
  else None.

(** [grid[i, j]] *)
Definition getitem (grid : ndarray) (i j : Z) : io Z :=
  IO [(i, j)]
     match norm_index (shape0 grid) i, norm_index (shape1 grid) j with
     | Some a, Some b => Return (item grid a b)
     | _, _ => Raise IndexError
     end.

(** ** [heuristic] and [get_neighbors] *)

(** [np.sqrt] on the arguments the program gives it, squared lengths of
    steps between neighbouring cells: [np_sqrt 1 = 1] and
    [np_sqrt 2 = sqrt 2].  Elsewhere the integer square root stands in. *)
Definition np_sqrt (n : Z) : Surd.t :=
  if n =? 2 then Surd.sqrt2 else Surd.of_Z (Z.sqrt n).

Definition heuristic (a b : cell) : Surd.t :=
  let dx := Z.abs (a.1 - b.1) in
  let dy := Z.abs (a.2 - b.2) in
  Surd.add (Surd.of_Z (dx + dy))
           (Surd.mul (Surd.sub (np_sqrt 2) (Surd.of_Z 2)) (Surd.of_Z (Z.min dx dy))).

(** The pairs [(dx, dy)] in the order of the two nested [for] loops. *)
Definition offsets : list (Z * Z) :=
  dx ← [-1; 0; 1]; dy ← [-1; 0; 1]; [(dx, dy)].

(** The body of the inner [for] loop, on the list built so far. *)
Definition visit (grid : ndarray) (x y : Z) (neighbors : list cell) (d : Z * Z)
  : io (list cell) :=
  let '(dx, dy) := d in
  if (dx =? 0) && (dy =? 0) then mret neighbors
  else
    let nx := x + dx in
    let ny := y + dy in
    if (0 <=? nx) && (nx <? Z.of_nat (shape0 grid))
       && ((0 <=? ny) && (ny <? Z.of_nat (shape1 grid))) then
      blocked ← (if negb (dx =? 0) && negb (dy =? 0) then
                   a ← getitem grid (x + dx) y;
                   if a =? 1 then mret true
                   else b ← getitem grid x (y + dy); mret (b =? 1)
                 else mret false);
      if blocked : bool then mret neighbors
      else
        v ← getitem grid nx ny;
        if v =? 0 then mret (neighbors ++ [(nx, ny)]) else mret neighbors
    else mret neighbors.

Fixpoint for_each {A B : Type} (body : A -> B -> io A) (acc : A) (l : list B) : io A :=
  match l with
  | [] => mret acc
  | b :: l' => acc' ← body acc b; for_each body acc' l'
  end.

Definition get_neighbors_io (node : cell) (grid : ndarray) : io (list cell) :=
  let '(x, y) := node in
  for_each (visit grid x y) [] offsets.

Definition get_neighbors (node : cell) (grid : ndarray) : outcome (list cell) :=
  result (get_neighbors_io node grid).

(** ** [astar] *)

(** [np.sqrt((neighbor[0] - current[0])**2 + (neighbor[1] - current[1])**2)] *)
Definition move_cost (current neighbor : cell) : Surd.t :=
  np_sqrt ((neighbor.1 - current.1) ^ 2 + (neighbor.2 - current.2) ^ 2).

(** A frontier entry [(priority, cost, node)]. *)
Abbreviation entry := (Surd.t * Surd.t * cell)%type (only parsing).

(** Python's [<] on pairs of integers and on the entry tuples:
    lexicographic, a component being compared only when the ones before it
    are equal. *)
Definition cell_ltb (a b : cell) : bool :=
  (a.1 <? b.1) || ((a.1 =? b.1) && (a.2 <? b.2)).

Definition entry_ltb (e1 e2 : entry) : bool :=
  let '(p1, c1, n1) := e1 in
  let '(p2, c2, n2) := e2 in
  Surd.ltb p1 p2
  || (Surd.eqb p1 p2 && (Surd.ltb c1 c2 || (Surd.eqb c1 c2 && cell_ltb n1 n2))).

(** [heapq.heappush] and [heapq.heappop] on a heap kept as a bag: a push
    adds the item, a pop removes a least item and returns it with what is
    left ([None] on the empty heap, where the loop test [while open_set]
    fails). *)
Definition heappush (heap : list entry) (e : entry) : list entry := e :: heap.

Fixpoint heappop (heap : list entry) : option (entry * list entry) :=
  match heap with
  | [] => None
  | e :: heap' =>
      match heappop heap' with
      | None => Some (e, [])
      | Some (m, rest) =>
          if entry_ltb m e then Some (m, e :: rest) else Some (e, heap')
      end
  end.

Record state : Type := State {
  open_set : list entry;
  came_from : gmap cell cell;
  cost_so_far : gmap cell Surd.t
}.

(** The body of [for neighbor in get_neighbors(current, grid)]. *)
Definition relax (push : list entry -> entry -> list entry)
    (goal current : cell) (current_cost : Surd.t) (st : state) (neighbor : cell) : state :=
  let new_cost := Surd.add current_cost (move_cost current neighbor) in
  if match cost_so_far st !! neighbor with
     | None => true
     | Some old => Surd.ltb new_cost old
     end
  then
    let priority := Surd.add new_cost (heuristic neighbor goal) in
    State (push (open_set st) (priority, new_cost, neighbor))
          (<[neighbor := current]> (came_from st))
          (<[neighbor := new_cost]> (cost_so_far st))
  else st.

(** [while open_set: ...], left by [break] when the goal is popped. *)
Fixpoint search (push : list entry -> entry -> list entry)
    (grid : ndarray) (goal : cell) (fuel : nat) (st : state) : outcome state :=
  match fuel with
  | O => OutOfFuel
  | S fuel' =>
      match heappop (open_set st) with
      | None => Return st
      | Some ((_, current_cost, current), rest) =>
          let st' := State rest (came_from st) (cost_so_far st) in
          if decide (current = goal) then Return st'
          else
            neighbors ← get_neighbors current grid;
            search push grid goal fuel'
                   (foldl (relax push goal current current_cost) st' neighbors)
      end
  end.

(** [while current != start: path.append(current); current = came_from[current]] *)
Fixpoint reconstruct (fuel : nat) (came_from : gmap cell cell)
    (start current : cell) (path : list cell) : outcome (list cell) :=
  match fuel with
  | O => OutOfFuel
  | S fuel' =>
      if decide (current = start) then Return path
      else
        match came_from !! current with
        | None => Raise KeyError
        | Some prev => reconstruct fuel' came_from start prev (path ++ [current])
        end
  end.

Definition initial (start : cell) : state :=
  State [(Surd.zero, Surd.zero, start)] ∅ {[start := Surd.zero]}.

(** [astar], over any implementation [push] of the heap insertion.  The
    result is [None] for the no-path signal and [Some path] otherwise. *)
Definition astar_with (push : list entry -> entry -> list entry)
    (fuel : nat) (start goal : cell) (grid : ndarray) : outcome (option (list cell)) :=
  st ← search push grid goal fuel (initial start);
  match came_from st !! goal with
  | None => Return None
  | Some _ =>
      path ← reconstruct fuel (came_from st) start goal [];
      Return (Some (reverse (path ++ [start])))
  end.

Definition astar : nat -> cell -> cell -> ndarray -> outcome (option (list cell)) :=
  astar_with heappush.

(** ** [create_parking_lot] and the script *)

(** [np.zeros((rows, cols), dtype=int)].  numpy rejects a negative
    dimension before anything else, so the dimensions are natural numbers. *)
Definition np_zeros (rows cols : nat) : ndarray := Grid rows cols (fun _ _ => 0).

(** Whether the slice [start:stop:step] selects the index [k] of an axis of
    length [n], for the non-negative bounds and positive steps that the
    program writes: the slice is clipped to the axis. *)
Definition in_slice (start stop step n k : nat) : bool :=
  (start <=? k)%nat && (k <? stop)%nat && (k <? n)%nat
  && ((k - start) mod step =? 0)%nat.

(** [grid[r0:r1, c0:c1] = v]; an assignment through slices sets the cells
    selected and never raises. *)
Definition setitem_block (grid : ndarray) (r0 r1 c0 c1 : nat) (v : Z) : ndarray :=
  Grid (shape0 grid) (shape1 grid)
       (fun i j =>
          if in_slice r0 r1 1 (shape0 grid) i && in_slice c0 c1 1 (shape1 grid) j
          then v else item grid i j).

(** [grid[i, c0:c1:step] = v]; the integer index is checked as in a read. *)
Definition setitem_row (grid : ndarray) (i : Z) (c0 c1 step : nat) (v : Z)
  : outcome ndarray :=
  match norm_index (shape0 grid) i with
  | Some r =>
      Return (Grid (shape0 grid) (shape1 grid)
                   (fun i' j =>
                      if (i' =? r)%nat && in_slice c0 c1 step (shape1 grid) j
                      then v else item grid i' j))
  | None => Raise IndexError
  end.

(** [grid[i, j] = v] *)
Definition setitem (grid : ndarray) (i j : Z) (v : Z) : outcome ndarray :=
  match norm_index (shape0 grid) i, norm_index (shape1 grid) j with
  | Some r, Some c =>
      Return (Grid (shape0 grid) (shape1 grid)
                   (fun i' j' =>
                      if (i' =? r)%nat && (j' =? c)%nat then v else item grid i' j'))
  | _, _ => Raise IndexError
  end.

(** A [for] loop whose body may raise. *)
Fixpoint for_in {A B : Type} (body : A -> B -> outcome A) (acc : A) (l : list B)
  : outcome A :=
  match l with
  | [] => Return acc
  | b :: l' => acc' ← body acc b; for_in body acc' l'
  end.

Definition create_parking_lot (rows cols : nat) : outcome ndarray :=
  let grid := np_zeros rows cols in
  let grid := setitem_block grid 3 7 4 6 1 in
  grid ← for_in (fun grid i =>
                   grid ← setitem_row grid i 2 8 1 0;
                   setitem_row grid i 2 8 2 1)
                grid [1; 8];
  grid ← setitem grid 0 0 0;
  setitem grid (-1) (-1) 0.



(** * The vocabulary of the properties *)

Definition in_bounds (grid : ndarray) (c : cell) : Prop :=
  0 <= c.1 < Z.of_nat (shape0 grid) /\ 0 <= c.2 < Z.of_nat (shape1 grid).

(** The occupancy value of an in-bounds cell. *)
Definition occupancy (grid : ndarray) (c : cell) : Z :=
  item grid (Z.to_nat c.1) (Z.to_nat c.2).

(** The adjacency rule, for the step [(dx, dy)] out of the cell [(x, y)]. *)
Definition legal_step (grid : ndarray) (x y dx dy : Z) : Prop :=
  ~ (dx = 0 /\ dy = 0)
  /\ in_bounds grid (x + dx, y + dy)
  /\ occupancy grid (x + dx, y + dy) = 0
  /\ (dx <> 0 -> dy <> 0 ->
      occupancy grid (x + dx, y) <> 1 /\ occupancy grid (x, y + dy) <> 1).

(** One unit step in each coordinate at most, and not the null step. *)
Definition adjacent (a b : cell) : Prop :=
  -1 <= b.1 - a.1 <= 1 /\ -1 <= b.2 - a.2 <= 1 /\ a <> b.

(** The total edge cost of a sequence of cells. *)
Fixpoint path_cost (p : list cell) : Surd.t :=
  match p with
  | a :: (b :: _) as rest => Surd.add (move_cost a b) (path_cost rest)
  | _ => Surd.zero
  end.

(** [chain R a b p]: [p] runs from [a] to [b], both included, by steps of [R]. *)
Inductive chain (R : cell -> cell -> Prop) : cell -> cell -> list cell -> Prop :=
| chain_one a : chain R a a [a]
| chain_step a b c p : R a b -> chain R b c p -> chain R a c (a :: p).

(** A legal transition of the adjacency rule: [b] is among the neighbours
    that [get_neighbors] returns for [a]. *)
Definition neighbor_of (grid : ndarray) (a b : cell) : Prop :=
  exists l, get_neighbors a grid = Return l /\ b ∈ l.

Definition legal_path (grid : ndarray) : cell -> cell -> list cell -> Prop :=
  chain (neighbor_of grid).

(** A sequence of 8-directional steps on the unbounded obstacle-free grid. *)
Definition walk : cell -> cell -> list cell -> Prop := chain adjacent.

(** A heap insertion may arrange the items as it likes. *)
Definition push_ok (push : list entry -> entry -> list entry) : Prop :=
  forall heap e, push heap e ≡ₚ e :: heap.

Definition invalid_query (grid : ndarray) (start goal : cell) : Prop :=
  ~ in_bounds grid start \/ ~ in_bounds grid goal
  \/ occupancy grid start = 1 \/ occupancy grid goal = 1.

(** One more than the number of cells of the grid: the search meets cells
    of the grid and the start, which may lie outside. *)
Definition cell_count (grid : ndarray) : nat := S (shape0 grid * shape1 grid).

(** The costs that a path repeating no cell can have: [a + b * sqrt 2]
    with [a] and [b] below [cell_count]. *)
Definition small_costs (grid : ndarray) : list Surd.t :=
  a ← seqZ 0 (Z.of_nat (cell_count grid));
  b ← seqZ 0 (Z.of_nat (cell_count grid)); [Surd.mk a b].

(** Fuel that suffices for both loops, from any start. *)
Definition fuel_bound (grid : ndarray) : nat :=
  2 + cell_count grid * S (length (small_costs grid)).

(** * Definitions used by the proofs *)

Definition legal_stepb (grid : ndarray) (x y : Z) (d : Z * Z) : bool :=
  let '(dx, dy) := d in
  negb ((dx =? 0) && (dy =? 0))
  && ((0 <=? x + dx) && (x + dx <? Z.of_nat (shape0 grid))
      && ((0 <=? y + dy) && (y + dy <? Z.of_nat (shape1 grid))))
  && (occupancy grid (x + dx, y + dy) =? 0)
  && (((dx =? 0) || (dy =? 0))
      || (negb (occupancy grid (x + dx, y) =? 1)
          && negb (occupancy grid (x, y + dy) =? 1))).

(** What [get_neighbors] returns for an in-bounds cell, as a list. *)
Definition neighbors_spec (grid : ndarray) (x y : Z) : list cell :=
  d ← offsets; if legal_stepb grid x y d then [(x + d.1, y + d.2)] else [].

(** The entries are ordered as their images in R^4, lexicographically. *)
Definition lex4 (a b : R * R * R * R) : Prop :=
  let '(a1, a2, a3, a4) := a in
  let '(b1, b2, b3, b4) := b in
  (a1 < b1 \/ (a1 = b1 /\ (a2 < b2 \/ (a2 = b2 /\ (a3 < b3 \/ (a3 = b3 /\ a4 < b4))))))%R.

Definition key (e : entry) : R * R * R * R :=
  let '(p, c, n) := e in (Surd.toR p, Surd.toR c, IZR n.1, IZR n.2).

(** [e1] is not above [e2] in the heap order. *)
Definition entry_le (e1 e2 : entry) : Prop := entry_ltb e2 e1 = false.

Definition state_equiv (s1 s2 : state) : Prop :=
  open_set s1 ≡ₚ open_set s2
  /\ came_from s1 = came_from s2
  /\ cost_so_far s1 = cost_so_far s2.

Definition outcome_equiv (o1 o2 : outcome state) : Prop :=
  match o1, o2 with
  | Return s1, Return s2 => state_equiv s1 s2
  | Raise e1, Raise e2 => e1 = e2
  | OutOfFuel, OutOfFuel => True
  | _, _ => False
  end.

(** Number of elements of [l] strictly below [x]. *)
Fixpoint count_below (x : Surd.t) (l : list Surd.t) : nat :=
  match l with
  | [] => 0
  | t :: l' => (if Surd.ltb t x then 1 else 0) + count_below x l'
  end.

(** The cells the search can ever meet: the start, wherever it lies, and
    the cells of the grid. *)
Definition valid (grid : ndarray) (start : cell) (c : cell) : Prop :=
  c = start \/ in_bounds grid c.

Definition cells (grid : ndarray) : list cell :=
  i ← seqZ 0 (Z.of_nat (shape0 grid)); j ← seqZ 0 (Z.of_nat (shape1 grid)); [(i, j)].

Definition universe (grid : ndarray) (start : cell) : list cell := start :: cells grid.

(** The costs of the paths that repeat no cell: non-negative coefficients
    that sum to less than the number of cells. *)
Definition small (grid : ndarray) (x : Surd.t) : Prop :=
  0 <= Surd.rat x /\ 0 <= Surd.irr x
  /\ Surd.rat x + Surd.irr x < Z.of_nat (cell_count grid).

Definition rank (grid : ndarray) (x : Surd.t) : nat :=
  count_below x (small_costs grid).

(** What a cell can still contribute to the work: one push each time its
    recorded cost goes down. *)
Definition pot (grid : ndarray) (cs : gmap cell Surd.t) (n : cell) : nat :=
  match cs !! n with
  | None => S (length (small_costs grid))
  | Some x => rank grid x
  end.

Definition potential (grid : ndarray) (cs : gmap cell Surd.t) (l : list cell) : nat :=
  sum_list_with (pot grid cs) l.

Definition measure (grid : ndarray) (start : cell) (st : state) : nat :=
  length (open_set st) + potential grid (cost_so_far st) (universe grid start).

Definition leq_map (cs cs' : gmap cell Surd.t) : Prop :=
  forall m x, cs !! m = Some x -> exists x', cs' !! m = Some x' /\ Surd.le x' x.

Definition below (cs : gmap cell Surd.t) (c : Surd.t) (m : cell) : Prop :=
  exists x, cs !! m = Some x /\ Surd.lt x c.

(** The cost [c] of an entry for [n] is the cost of a path that repeats
    no cell: [anc] lists the cells before [n] on it, each of which has a
    recorded cost below [c]. *)
Definition reached (grid : ndarray) (start : cell)
    (cs : gmap cell Surd.t) (c : Surd.t) (n : cell) : Prop :=
  (exists x, cs !! n = Some x /\ Surd.le x c)
  /\ exists anc : list cell,
       NoDup (n :: anc)
       /\ (forall m, m ∈ n :: anc -> valid grid start m)
       /\ (forall m, m ∈ anc -> below cs c m)
       /\ 0 <= Surd.rat c /\ 0 <= Surd.irr c
       /\ Surd.rat c + Surd.irr c = Z.of_nat (length anc).

Definition priority_ok (goal : cell) (p c : Surd.t) (n : cell) : Prop :=
  p = Surd.add c (heuristic n goal) \/ (p = Surd.zero /\ c = Surd.zero).

Definition entry_ok (grid : ndarray) (start goal : cell)
    (cs : gmap cell Surd.t) (e : entry) : Prop :=
  priority_ok goal e.1.1 e.1.2 e.2 /\ reached grid start cs e.1.2 e.2.

(** The invariant of the search loop on the two tables and the frontier. *)
Record inv0 (grid : ndarray) (start goal : cell) (st : state) : Prop := {
  inv_start : cost_so_far st !! start = Some Surd.zero;
  inv_small : forall n x, cost_so_far st !! n = Some x -> small grid x;
  inv_open : forall e, e ∈ open_set st -> entry_ok grid start goal (cost_so_far st) e;
  inv_from : forall n m, came_from st !! n = Some m ->
    neighbor_of grid m n
    /\ exists xm xn, cost_so_far st !! m = Some xm /\ cost_so_far st !! n = Some xn
                     /\ Surd.le (Surd.add xm (move_cost m n)) xn;
  inv_dom : forall n, is_Some (cost_so_far st !! n) ->
    n = start \/ is_Some (came_from st !! n);
  inv_reach : forall n, is_Some (cost_so_far st !! n) ->
    exists p, legal_path grid start n p
}.

(** How a state evolves inside one iteration. *)
Record extends (grid : ndarray) (start goal : cell) (st st' : state) : Prop := {
  ext_open : forall e, e ∈ open_set st -> e ∈ open_set st';
  ext_cost : leq_map (cost_so_far st) (cost_so_far st');
  ext_new : forall u x', cost_so_far st' !! u = Some x' ->
    cost_so_far st !! u = Some x'
    \/ (Surd.add x' (heuristic u goal), x', u) ∈ open_set st';
  ext_measure : (measure grid start st' <= measure grid start st)%nat
}.

(** Some entry of the frontier lies on a path to the goal of at most
    [len] cells that, entered with the cost of the entry, stays within
    the budget. *)
Definition covered (grid : ndarray) (goal : cell)
    (open : list entry) (budget : Surd.t) (len : nat) : Prop :=
  exists (p c : Surd.t) (v : cell) (S : list cell),
    (p, c, v) ∈ open /\ legal_path grid v goal S /\ (length S <= len)%nat
    /\ Surd.le (Surd.add c (path_cost S)) budget.

Definition inv_cover (grid : ndarray) (goal : cell) (st : state) : Prop :=
  forall u x Q, cost_so_far st !! u = Some x -> legal_path grid u goal Q ->
    covered grid goal (open_set st) (Surd.add x (path_cost Q)) (length Q).

Definition inv (grid : ndarray) (start goal : cell) (st : state) : Prop :=
  inv0 grid start goal st /\ inv_cover grid goal st.

(** The recorded cost of the goal is at most the cost of any legal path. *)
Definition optimal (grid : ndarray) (start goal : cell) (st : state) : Prop :=
  forall P, legal_path grid start goal P ->
    exists x, cost_so_far st !! goal = Some x /\ Surd.le x (path_cost P).

(** The lot that [create_parking_lot] builds for 10 rows and 10 columns. *)
Definition parking_lot : ndarray := of_rows
  [ [0;0;0;0;0;0;0;0;0;0];
    [0;0;1;0;1;0;1;0;0;0];
    [0;0;0;0;0;0;0;0;0;0];
    [0;0;0;0;1;1;0;0;0;0];
    [0;0;0;0;1;1;0;0;0;0];
    [0;0;0;0;1;1;0;0;0;0];
    [0;0;0;0;1;1;0;0;0;0];
    [0;0;0;0;0;0;0;0;0;0];
    [0;0;1;0;1;0;1;0;0;0];
    [0;0;0;0;0;0;0;0;0;0] ].

(** ** Definitions used by the further properties *)

(** The occupancy that [create_parking_lot] gives to row [i], column [j]. *)
Definition lot_value (rows cols i j : nat) : Z :=
  if ((i =? 0) && (j =? 0))%nat then 0
  else if ((i =? rows - 1) && (j =? cols - 1))%nat then 0
  else if (((i =? 1) || (i =? 8)) && ((j =? 2) || (j =? 4) || (j =? 6)))%nat then 1
  else if ((3 <=? i) && (i <? 7) && ((j =? 4) || (j =? 5)))%nat then 1
  else 0.

(** The cells around [(x, y)], in the order of the two loops of
    [get_neighbors]. *)
Definition around (x y : Z) : list cell :=
  (fun d : Z * Z => (x + d.1, y + d.2))
    <$> List.filter (fun d : Z * Z => negb ((d.1 =? 0) && (d.2 =? 0))) offsets.

(** * Examples *)

Example offsets_order :
  offsets = [(-1,-1); (-1,0); (-1,1); (0,-1); (0,0); (0,1); (1,-1); (1,0); (1,1)].
Proof. reflexivity. Qed.

(** The corner-cutting scenario of the spec: in a 3x3 grid with (0,1) and
    (1,0) blocked, the corner (0,0) has no neighbour at all. *)
Example corner_cut :
  get_neighbors (0, 0) (of_rows [[0;1;0]; [1;0;0]; [0;0;0]]) = Return [].
Proof. reflexivity. Qed.

Example centre_neighbors :
  get_neighbors (1, 1) (of_rows [[0;1;0]; [0;0;0]; [0;0;1]])
  = Return [(1,0); (1,2); (2,0); (2,1)].
Proof. reflexivity. Qed.

Example astar_parking_lot :
  astar 1000 (0, 0) (9, 9) parking_lot
  = Return (Some [(0,0); (1,1); (2,1); (3,2); (4,3); (5,3); (6,3); (7,3);
                  (7,4); (7,5); (7,6); (7,7); (8,8); (9,9)]).
Proof. vm_compute. reflexivity. Qed.

(** The query whose start is its goal, on the 1x1 free grid. *)
Example astar_trivial_query :
  astar 10 (0, 0) (0, 0) (of_rows [[0]]) = Return None.
Proof. reflexivity. Qed.

(** A start outside the grid: numpy raises on the pass-through read
    [grid[1, 2]], or wraps a negative index around. *)
Example astar_start_out_of_bounds :
  astar 100 (0, 2) (0, 1) (of_rows [[0;0]; [0;0]]) = Raise IndexError
  /\ reads (get_neighbors_io (-1, 0) (of_rows [[0;0]]))
     = [(0, 0); (0, 0); (-1, 1); (0, 1)]
  /\ astar 100 (-1, 0) (0, 1) (of_rows [[0;0]]) = Return (Some [(-1, 0); (0, 1)]).
Proof. repeat split; vm_compute; reflexivity. Qed.

(** * Facts on the arithmetic *)

Module SurdFacts.
Import Surd.

Lemma sqrt2_sq : (sqrt 2 * sqrt 2 = 2)%R.
Proof. apply sqrt_sqrt. lra. Qed.

Lemma sqrt2_pos : (0 < sqrt 2)%R.
Proof. apply sqrt_lt_R0. lra. Qed.

Lemma pos_spec x : pos x = true <-> (0 < toR x)%R.
Proof.
  destruct x as [a b]. unfold pos, toR. simpl.
  pose proof sqrt2_sq as Hs. pose proof sqrt2_pos as Hp.
  set (s := sqrt 2) in *.
  destruct (Z.leb_spec 0 a) as [Ha|Ha]; destruct (Z.leb_spec 0 b) as [Hb|Hb];
    destruct (Z.leb_spec a 0) as [Ha'|Ha']; destruct (Z.leb_spec b 0) as [Hb'|Hb'];
    destruct (Z.ltb_spec 0 a) as [Ha2|Ha2]; destruct (Z.eqb_spec a 0) as [Ha0|Ha0];
    destruct (Z.eqb_spec b 0) as [Hb0|Hb0]; try lia; simpl;
    try (apply IZR_le in Ha); try (apply IZR_lt in Ha);
    try (apply IZR_le in Hb); try (apply IZR_lt in Hb);
    try (apply IZR_le in Ha'); try (apply IZR_lt in Ha');
    try (apply IZR_le in Hb'); try (apply IZR_lt in Hb');
    try (split; [discriminate | nra]);
    try (split; [intros _; nra | reflexivity]).
  - split; intros H.
    + apply Z.ltb_lt, IZR_lt in H. rewrite !mult_IZR in H.
      destruct (Rlt_le_dec 0 (IZR a + IZR b * s)) as [|C]; [assumption|exfalso].
      assert (0 <= (- IZR b * s - IZR a) * (- IZR b * s + IZR a))%R
        by (apply Rmult_le_pos; nra).
      nra.
    + apply Z.ltb_lt, lt_IZR. rewrite !mult_IZR.
      assert (0 < (IZR a + IZR b * s) * (IZR a - IZR b * s))%R
        by (apply Rmult_lt_0_compat; nra).
      nra.
  - split; intros H.
    + apply Z.ltb_lt, IZR_lt in H. rewrite !mult_IZR in H.
      destruct (Rlt_le_dec 0 (IZR a + IZR b * s)) as [|C]; [assumption|exfalso].
      assert (0 <= (- IZR a - IZR b * s) * (- IZR a + IZR b * s))%R
        by (apply Rmult_le_pos; nra).
      nra.
    + apply Z.ltb_lt, lt_IZR. rewrite !mult_IZR.
      assert (0 < (IZR a + IZR b * s) * (IZR b * s - IZR a))%R
        by (apply Rmult_lt_0_compat; nra).
      nra.
Qed.

(** [sqrt 2] is irrational, so an element is determined by its value. *)
Lemma sqrt2_irrational (a b : Z) : a * a = 2 * (b * b) -> a = 0 /\ b = 0.
Proof.
  assert (H : forall (n : nat) (x y : Z),
             Z.abs y < Z.of_nat n -> x * x = 2 * (y * y) -> x = 0 /\ y = 0).
  { induction n as [|n IH]; intros x y Hn E; [lia|].
    destruct (Z.eq_dec y 0) as [->|Hy]; [nia|].
    assert (Hx : exists k, x = 2 * k).
    { destruct (Z.Even_or_Odd x) as [[k ->]|[k ->]]; [eauto|lia]. }
    destruct Hx as [k ->].
    assert (Hy2 : exists m, y = 2 * m).
    { destruct (Z.Even_or_Odd y) as [[m ->]|[m ->]]; [eauto|lia]. }
    destruct Hy2 as [m ->].
    destruct (IH k m) as [-> ->]; lia. }
  intros E. apply (H (S (Z.to_nat (Z.abs b))) a b); [lia|exact E].
Qed.

Lemma toR_inj x y : toR x = toR y -> x = y.
Proof.
  destruct x as [a b], y as [c d]. unfold toR; simpl. intros E.
  pose proof sqrt2_sq as Hs.
  assert (E' : (IZR (a - c) = IZR (d - b) * sqrt 2)%R) by (rewrite !minus_IZR; lra).
  assert (E2 : (IZR (a - c) * IZR (a - c) = 2 * (IZR (d - b) * IZR (d - b)))%R).
  { rewrite E'. nra. }
  rewrite <- !mult_IZR in E2. apply eq_IZR in E2.
  apply sqrt2_irrational in E2. f_equal; lia.
Qed.

Lemma toR_add x y : toR (add x y) = (toR x + toR y)%R.
Proof. unfold toR, add; simpl. rewrite !plus_IZR. lra. Qed.

Lemma toR_sub x y : toR (sub x y) = (toR x - toR y)%R.
Proof. unfold toR, sub; simpl. rewrite !minus_IZR. lra. Qed.

Lemma toR_mul x y : toR (mul x y) = (toR x * toR y)%R.
Proof.
  unfold toR, mul; simpl. rewrite !plus_IZR, !mult_IZR.
  transitivity (IZR (rat x) * IZR (rat y)
                + IZR (irr x) * IZR (irr y) * (sqrt 2 * sqrt 2)
                + (IZR (rat x) * IZR (irr y) + IZR (irr x) * IZR (rat y)) * sqrt 2)%R.
  - rewrite sqrt2_sq. ring.
  - ring.
Qed.

Lemma toR_of_Z n : toR (of_Z n) = IZR n.
Proof. unfold toR, of_Z; simpl. lra. Qed.

Lemma toR_zero : toR zero = 0%R.
Proof. apply toR_of_Z. Qed.

Lemma toR_sqrt2 : toR sqrt2 = sqrt 2.
Proof. unfold toR, sqrt2; simpl. lra. Qed.

Lemma lt_spec x y : lt x y <-> (toR x < toR y)%R.
Proof. unfold lt, ltb. rewrite pos_spec, toR_sub. split; lra. Qed.

Lemma le_spec x y : le x y <-> (toR x <= toR y)%R.
Proof.
  unfold le. destruct (ltb y x) eqn:E.
  - apply lt_spec in E. split; [discriminate|lra].
  - split; [intros _|reflexivity].
    destruct (Rle_lt_dec (toR x) (toR y)) as [|C]; [assumption|].
    apply lt_spec in C. unfold lt in C. congruence.
Qed.

Lemma ltb_true x y : ltb x y = true <-> (toR x < toR y)%R.
Proof. apply lt_spec. Qed.

Lemma ltb_false x y : ltb x y = false <-> (toR y <= toR x)%R.
Proof. apply (le_spec y x). Qed.

Lemma eqb_eq x y : eqb x y = true <-> x = y.
Proof.
  destruct x as [a b], y as [c d]. unfold eqb; simpl.
  rewrite andb_true_iff, !Z.eqb_eq. split; [intros [-> ->]; reflexivity|].
  intros E; injection E; auto.
Qed.


End SurdFacts.

(** Moves every order fact on [Surd.t] in the context and the goal to the
    reals and leaves a linear problem there. *)
Ltac surd_to_R :=
  unfold Surd.lt, Surd.le in *;
  repeat match goal with
  | H : Surd.ltb _ _ = true |- _ => apply SurdFacts.ltb_true in H
  | H : Surd.ltb _ _ = false |- _ => apply SurdFacts.ltb_false in H
  | H : context [Surd.toR (Surd.add _ _)] |- _ => rewrite SurdFacts.toR_add in H
  | H : context [Surd.toR Surd.zero] |- _ => rewrite SurdFacts.toR_zero in H
  end;
  try match goal with
  | |- Surd.ltb _ _ = true => apply SurdFacts.ltb_true
  | |- Surd.ltb _ _ = false => apply SurdFacts.ltb_false
  end;
  rewrite ?SurdFacts.toR_add, ?SurdFacts.toR_zero.

Ltac surd := surd_to_R; lra.

(** ** Properties of [get_neighbors] *)

Lemma legal_stepb_spec grid x y dx dy :
  legal_stepb grid x y (dx, dy) = true <-> legal_step grid x y dx dy.
Proof.
  unfold legal_stepb, legal_step, in_bounds; simpl.
  rewrite !andb_true_iff, !orb_true_iff, !andb_true_iff, !negb_true_iff,
    andb_false_iff, !Z.eqb_eq, !Z.eqb_neq, !Z.leb_le, !Z.ltb_lt.
  split.
  - intros [[[H0 H1] H2] H3]. repeat split; try lia; destruct H3; lia.
  - intros (H0 & H1 & H2 & H3). repeat split; lia.
Qed.

Lemma offsets_spec dx dy :
  (dx, dy) ∈ offsets <-> (-1 <= dx <= 1) /\ (-1 <= dy <= 1).
Proof.
  rewrite offsets_order. rewrite !elem_of_cons, elem_of_nil. split.
  - intros H. repeat (destruct H as [H|H]; [injection H; lia|]). contradiction.
  - intros [H1 H2].
    assert (dx = -1 \/ dx = 0 \/ dx = 1) as [-> | [-> | ->]] by lia;
      assert (dy = -1 \/ dy = 0 \/ dy = 1) as [-> | [-> | ->]] by lia; tauto.
Qed.

Lemma offsets_NoDup : NoDup offsets.
Proof. rewrite offsets_order. apply (bool_decide_unpack _). vm_compute. exact I. Qed.

Lemma norm_index_in_range n i :
  0 <= i < Z.of_nat n -> norm_index n i = Some (Z.to_nat i).
Proof.
  intros H. unfold norm_index.
  destruct (Z.leb_spec 0 i); [|lia]. destruct (Z.ltb_spec i (Z.of_nat n)); [|lia].
  reflexivity.
Qed.

Lemma getitem_in_bounds grid i j :
  in_bounds grid (i, j) ->
  getitem grid i j = IO [(i, j)] (Return (occupancy grid (i, j))).
Proof.
  intros [Hi Hj]; simpl in *. unfold getitem.
  rewrite !norm_index_in_range by assumption. reflexivity.
Qed.

(** One iteration from an in-bounds cell: it reads in-bounds indices only,
    it raises nothing, and it appends the destination exactly when the step
    is legal. *)
Lemma visit_in_bounds grid x y acc dx dy :
  in_bounds grid (x, y) -> (dx, dy) ∈ offsets ->
  result (visit grid x y acc (dx, dy))
  = Return (acc ++ if legal_stepb grid x y (dx, dy) then [(x + dx, y + dy)] else [])
  /\ Forall (in_bounds grid) (reads (visit grid x y acc (dx, dy))).
Proof.
  intros [Hx Hy] Hd. apply offsets_spec in Hd. simpl in Hx, Hy.
  unfold visit, legal_stepb, occupancy, in_bounds.
  destruct (dx =? 0) eqn:Edx; destruct (dy =? 0) eqn:Edy;
    destruct (Z.leb_spec 0 (x + dx)); destruct (Z.ltb_spec (x + dx) (Z.of_nat (shape0 grid)));
    destruct (Z.leb_spec 0 (y + dy)); destruct (Z.ltb_spec (y + dy) (Z.of_nat (shape1 grid)));
    simpl; rewrite ?app_nil_r; try (split; [reflexivity|constructor]);
    unfold mbind, io_bind; simpl;
    rewrite ?(norm_index_in_range (shape0 grid) (x + dx)),
            ?(norm_index_in_range (shape1 grid) (y + dy)),
            ?(norm_index_in_range (shape0 grid) x),
            ?(norm_index_in_range (shape1 grid) y) by lia; simpl.
  all: repeat match goal with
       | |- context [item ?g ?a ?b =? ?k] => destruct (item g a b =? k) eqn:?; simpl
       end.
  all: rewrite ?app_nil_r; (split; [reflexivity|]); repeat constructor; simpl; lia.
Qed.

Lemma io_bind_return {A B : Type} (m : io A) (f : A -> io B) (a : A) :
  result m = Return a ->
  result (m ≫= f) = result (f a) /\ reads (m ≫= f) = reads m ++ reads (f a).
Proof. intros H. unfold mbind, io_bind. rewrite H. split; reflexivity. Qed.

Lemma io_bind_inv {A B : Type} (m : io A) (f : A -> io B) (b : B) :
  result (m ≫= f) = Return b ->
  exists a, result m = Return a /\ result (f a) = Return b.
Proof.
  unfold mbind, io_bind. destruct (result m) as [a| |]; simpl; try discriminate.
  intros H. exists a. split; [reflexivity|exact H].
Qed.

Lemma for_each_cons {A B : Type} (body : A -> B -> io A) acc b l :
  for_each body acc (b :: l) = body acc b ≫= fun acc' => for_each body acc' l.
Proof. reflexivity. Qed.

Lemma for_each_in_bounds grid x y ds acc :
  in_bounds grid (x, y) -> (forall d, d ∈ ds -> d ∈ offsets) ->
  result (for_each (visit grid x y) acc ds)
  = Return (acc ++ (d ← ds; if legal_stepb grid x y d then [(x + d.1, y + d.2)] else []))
  /\ Forall (in_bounds grid) (reads (for_each (visit grid x y) acc ds)).
Proof.
  intros Hin. revert acc. induction ds as [|[dx dy] ds IH]; intros acc Hds.
  - simpl. rewrite app_nil_r. split; [reflexivity|constructor].
  - destruct (visit_in_bounds grid x y acc dx dy Hin) as [Hr Hreads].
    { apply Hds. left. }
    destruct (IH (acc ++ if legal_stepb grid x y (dx, dy) then [(x + dx, y + dy)] else []))
      as [IHr IHreads].
    { intros d Hd. apply Hds. right. exact Hd. }
    rewrite for_each_cons.
    destruct (io_bind_return _ (fun acc' => for_each (visit grid x y) acc' ds) _ Hr)
      as [-> ->].
    split.
    + rewrite IHr, <- app_assoc. reflexivity.
    + apply Forall_app. split; assumption.
Qed.

Lemma get_neighbors_in_bounds grid x y :
  in_bounds grid (x, y) ->
  get_neighbors (x, y) grid = Return (neighbors_spec grid x y).
Proof.
  intros Hin. unfold get_neighbors, get_neighbors_io.
  destruct (for_each_in_bounds grid x y offsets [] Hin) as [H _]; [auto|].
  exact H.
Qed.

Lemma neighbors_spec_elem grid x y c :
  c ∈ neighbors_spec grid x y <->
  exists dx dy, (-1 <= dx <= 1) /\ (-1 <= dy <= 1)
                /\ c = (x + dx, y + dy) /\ legal_step grid x y dx dy.
Proof.
  unfold neighbors_spec. rewrite list_elem_of_bind. split.
  - intros ([dx dy] & Hc & Hd). apply offsets_spec in Hd.
    destruct (legal_stepb grid x y (dx, dy)) eqn:E.
    + apply legal_stepb_spec in E. apply list_elem_of_singleton in Hc.
      exists dx, dy. simpl in Hc. tauto.
    + apply elem_of_nil in Hc. contradiction.
  - intros (dx & dy & Hdx & Hdy & -> & Hl). exists (dx, dy). split.
    + apply legal_stepb_spec in Hl. rewrite Hl. simpl. left.
    + apply offsets_spec. tauto.
Qed.

Lemma neighbors_spec_NoDup grid x y : NoDup (neighbors_spec grid x y).
Proof.
  unfold neighbors_spec. apply NoDup_bind.
  - intros [dx1 dy1] [dx2 dy2] c _ _ H1 H2.
    destruct (legal_stepb grid x y (dx1, dy1)); [|apply elem_of_nil in H1; contradiction].
    destruct (legal_stepb grid x y (dx2, dy2)); [|apply elem_of_nil in H2; contradiction].
    apply list_elem_of_singleton in H1, H2. subst c. simpl in H2.
    injection H2 as E1 E2. f_equal; lia.
  - intros d _. destruct (legal_stepb grid x y d); [apply NoDup_singleton|apply NoDup_nil_2].
  - apply offsets_NoDup.
Qed.

(** From any cell, in bounds or not: whatever [get_neighbors] returns is in
    bounds, free, and one step away. *)
Lemma visit_any grid x y acc dx dy l :
  result (visit grid x y acc (dx, dy)) = Return l ->
  l = acc \/
  (l = acc ++ [(x + dx, y + dy)] /\ ~ (dx = 0 /\ dy = 0)
   /\ in_bounds grid (x + dx, y + dy) /\ occupancy grid (x + dx, y + dy) = 0).
Proof.
  unfold visit, occupancy, in_bounds.
  destruct (Z.eqb_spec dx 0); destruct (Z.eqb_spec dy 0);
    destruct (Z.leb_spec 0 (x + dx)); destruct (Z.ltb_spec (x + dx) (Z.of_nat (shape0 grid)));
    destruct (Z.leb_spec 0 (y + dy)); destruct (Z.ltb_spec (y + dy) (Z.of_nat (shape1 grid)));
    simpl; try (intros [= <-]; left; reflexivity);
    unfold mbind, io_bind; simpl;
    rewrite ?(norm_index_in_range (shape0 grid) (x + dx)),
            ?(norm_index_in_range (shape1 grid) (y + dy)) by lia; simpl.
  all: repeat match goal with
       | |- context [norm_index ?n ?i] => destruct (norm_index n i) eqn:?; simpl
       | |- context [item ?g ?a ?b =? ?k] => destruct (Z.eqb_spec (item g a b) k); simpl
       end.
  all: try discriminate.
  all: intros [= <-]; try (left; reflexivity); right; repeat split; simpl; lia.
Qed.

Lemma for_each_any grid x y ds acc l :
  result (for_each (visit grid x y) acc ds) = Return l ->
  forall c, c ∈ l ->
    c ∈ acc \/
    exists dx dy, (dx, dy) ∈ ds /\ c = (x + dx, y + dy) /\ ~ (dx = 0 /\ dy = 0)
                  /\ in_bounds grid c /\ occupancy grid c = 0.
Proof.
  revert acc. induction ds as [|[dx dy] ds IH]; intros acc H c Hc.
  - simpl in H. injection H as <-. left. exact Hc.
  - rewrite for_each_cons in H. apply io_bind_inv in H.
    destruct H as (acc' & Hv & H).
    destruct (IH _ H c Hc) as [Hin|(dx' & dy' & Hd & Hrest)].
    + apply visit_any in Hv. destruct Hv as [->|(-> & H1 & H2 & H3)]; [left; exact Hin|].
      apply elem_of_app in Hin. destruct Hin as [Hin|Hin]; [left; exact Hin|].
      apply list_elem_of_singleton in Hin. subst c. right.
      exists dx, dy. split; [left|tauto].
    + right. exists dx', dy'. split; [right; exact Hd|exact Hrest].
Qed.

Lemma get_neighbors_any node grid l c :
  get_neighbors node grid = Return l -> c ∈ l ->
  adjacent node c /\ in_bounds grid c /\ occupancy grid c = 0.
Proof.
  destruct node as [x y]. unfold get_neighbors, get_neighbors_io. intros H Hc.
  destruct (for_each_any grid x y offsets [] l H c Hc)
    as [Hnil|(dx & dy & Hd & -> & Hnz & Hin & Hocc)].
  - apply elem_of_nil in Hnil. contradiction.
  - apply offsets_spec in Hd. repeat split; simpl; try lia; try apply Hin; try exact Hocc.
    intros [= E1 E2]. lia.
Qed.

(** C2. For an in-bounds cell [(x, y)], [get_neighbors] returns, without
    repetition, exactly the cells [(x + dx, y + dy)] with [dx] and [dy] in
    [-1, 0, 1], not both zero, that are inside the grid, whose occupancy is
    0 and, for a diagonal step, whose two pass-through cells [(x + dx, y)]
    and [(x, y + dy)] are not obstacles (occupancy 1). *)
Theorem get_neighbors_exact (grid : ndarray) (x y : Z) :
  in_bounds grid (x, y) ->
  exists l, get_neighbors (x, y) grid = Return l /\ NoDup l /\
    forall c, c ∈ l <->
      exists dx dy, (-1 <= dx <= 1) /\ (-1 <= dy <= 1) /\ c = (x + dx, y + dy)
        /\ ~ (dx = 0 /\ dy = 0)
        /\ in_bounds grid c
        /\ occupancy grid c = 0
        /\ (dx <> 0 -> dy <> 0 ->
            occupancy grid (x + dx, y) <> 1 /\ occupancy grid (x, y + dy) <> 1).
Proof.
  intros Hin. exists (neighbors_spec grid x y).
  split; [apply get_neighbors_in_bounds; exact Hin|].
  split; [apply neighbors_spec_NoDup|].
  intros c. rewrite neighbors_spec_elem. unfold legal_step.
  split; intros (dx & dy & H1 & H2 & -> & H3); exists dx, dy; tauto.
Qed.

Lemma get_neighbors_exact_witness :
  in_bounds (of_rows [[0;1;0]; [0;0;0]; [0;0;1]]) (1, 1) /\
  exists l, get_neighbors (1, 1) (of_rows [[0;1;0]; [0;0;0]; [0;0;1]]) = Return l
            /\ NoDup l /\ (2, 0) ∈ l.
Proof.
  assert (Hin : in_bounds (of_rows [[0;1;0]; [0;0;0]; [0;0;1]]) (1, 1))
    by (unfold in_bounds; simpl; lia).
  split; [exact Hin|].
  destruct (get_neighbors_exact _ 1 1 Hin) as (l & Hl & Hnd & Hspec).
  exists l. split; [exact Hl|]. split; [exact Hnd|].
  apply Hspec. exists 1, (-1). unfold in_bounds, occupancy. simpl.
  repeat split; try lia; discriminate.
Defined.

(** C10. From an in-bounds cell every index pair that [get_neighbors] uses
    to read the grid, the two pass-through reads of a diagonal step
    included, is non-negative and below the grid's shape, and no read
    raises. *)
Theorem get_neighbors_reads_in_bounds (grid : ndarray) (node : cell) :
  in_bounds grid node ->
  Forall (fun ij => 0 <= ij.1 < Z.of_nat (shape0 grid)
                    /\ 0 <= ij.2 < Z.of_nat (shape1 grid))
         (reads (get_neighbors_io node grid))
  /\ exists l, result (get_neighbors_io node grid) = Return l.
Proof.
  destruct node as [x y]. intros Hin. unfold get_neighbors_io.
  destruct (for_each_in_bounds grid x y offsets [] Hin) as [Hr Hreads]; [auto|].
  split; [exact Hreads|]. eexists. exact Hr.
Qed.

Lemma get_neighbors_reads_in_bounds_witness :
  in_bounds (of_rows [[0;0]; [0;0]]) (0, 0) /\
  reads (get_neighbors_io (0, 0) (of_rows [[0;0]; [0;0]]))
  = [(0, 1); (1, 0); (1, 0); (0, 1); (1, 1)] /\
  Forall (fun ij => 0 <= ij.1 < 2 /\ 0 <= ij.2 < 2)
         (reads (get_neighbors_io (0, 0) (of_rows [[0;0]; [0;0]]))).
Proof.
  assert (Hin : in_bounds (of_rows [[0;0]; [0;0]]) (0, 0))
    by (unfold in_bounds; simpl; lia).
  split; [exact Hin|]. split; [reflexivity|].
  exact (proj1 (get_neighbors_reads_in_bounds _ _ Hin)).
Defined.

(** ** Step costs, paths and the heuristic *)

Lemma chain_impl (R S : cell -> cell -> Prop) a b p :
  (forall x y, R x y -> S x y) -> chain R a b p -> chain S a b p.
Proof. intros HRS H. induction H; econstructor; eauto. Qed.

Lemma legal_path_walk grid a b p : legal_path grid a b p -> walk a b p.
Proof.
  apply chain_impl. intros x y (l & Hl & Hy).
  apply (get_neighbors_any _ _ _ _ Hl Hy).
Qed.

Lemma chain_head R a b p : chain R a b p -> exists q, p = a :: q.
Proof. intros H. destruct H; eauto. Qed.

Lemma path_cost_cons R a b c p :
  chain R b c p -> path_cost (a :: p) = Surd.add (move_cost a b) (path_cost p).
Proof. intros H. destruct (chain_head _ _ _ _ H) as [q ->]. reflexivity. Qed.

Lemma sqrt2_bounds : (1.4 < sqrt 2 < 1.5)%R.
Proof.
  pose proof SurdFacts.sqrt2_sq. pose proof SurdFacts.sqrt2_pos. split; nra.
Qed.

(** A step costs 1 when it is orthogonal and [sqrt 2] when it is diagonal. *)
Lemma move_cost_adjacent a b :
  adjacent a b ->
  (move_cost a b = Surd.of_Z 1 /\ (a.1 = b.1 \/ a.2 = b.2))
  \/ (move_cost a b = Surd.sqrt2 /\ a.1 <> b.1 /\ a.2 <> b.2).
Proof.
  destruct a as [a1 a2], b as [b1 b2]. unfold adjacent, move_cost; simpl.
  intros (H1 & H2 & Hne).
  assert (Hx : b1 - a1 = -1 \/ b1 - a1 = 0 \/ b1 - a1 = 1) by lia.
  assert (Hy : b2 - a2 = -1 \/ b2 - a2 = 0 \/ b2 - a2 = 1) by lia.
  destruct Hx as [Ex|[Ex|Ex]]; destruct Hy as [Ey|[Ey|Ey]]; rewrite Ex, Ey; simpl;
    try (left; split; [reflexivity|lia]); try (right; split; [reflexivity|lia]).
  exfalso. apply Hne. f_equal; lia.
Qed.

(** On the steps the program takes, [np_sqrt] is the square root. *)
Lemma move_cost_is_sqrt a b :
  adjacent a b ->
  Surd.toR (move_cost a b) = sqrt (IZR ((b.1 - a.1) ^ 2 + (b.2 - a.2) ^ 2)).
Proof.
  destruct a as [a1 a2], b as [b1 b2]. unfold adjacent, move_cost; simpl.
  intros (H1 & H2 & Hne).
  assert (Hx : b1 - a1 = -1 \/ b1 - a1 = 0 \/ b1 - a1 = 1) by lia.
  assert (Hy : b2 - a2 = -1 \/ b2 - a2 = 0 \/ b2 - a2 = 1) by lia.
  destruct Hx as [Ex|[Ex|Ex]]; destruct Hy as [Ey|[Ey|Ey]];
    try (exfalso; apply Hne; f_equal; lia); rewrite Ex, Ey;
    match goal with
    | |- context [?u ^ 2 + ?v ^ 2] =>
        let k := eval vm_compute in (u ^ 2 + v ^ 2) in change (u ^ 2 + v ^ 2) with k
    end;
    unfold np_sqrt; simpl;
    rewrite ?SurdFacts.toR_of_Z, ?SurdFacts.toR_sqrt2, ?sqrt_1; reflexivity.
Qed.

Lemma toR_move_cost a b :
  adjacent a b -> (1 <= Surd.toR (move_cost a b))%R.
Proof.
  intros H. pose proof sqrt2_bounds.
  destruct (move_cost_adjacent a b H) as [[-> _]|[-> _]].
  - rewrite SurdFacts.toR_of_Z. lra.
  - rewrite SurdFacts.toR_sqrt2. lra.
Qed.

Lemma toR_heuristic a b :
  Surd.toR (heuristic a b)
  = (IZR (Z.abs (a.1 - b.1) + Z.abs (a.2 - b.2))
     + (sqrt 2 - 2) * IZR (Z.min (Z.abs (a.1 - b.1)) (Z.abs (a.2 - b.2))))%R.
Proof.
  unfold heuristic. rewrite SurdFacts.toR_add, SurdFacts.toR_mul, SurdFacts.toR_sub, !SurdFacts.toR_of_Z.
  change (np_sqrt 2) with Surd.sqrt2. rewrite SurdFacts.toR_sqrt2. reflexivity.
Qed.

Lemma heuristic_self b : heuristic b b = Surd.zero.
Proof.
  unfold heuristic. rewrite !Z.sub_diag. reflexivity.
Qed.

Lemma heuristic_nonneg a b : (0 <= Surd.toR (heuristic a b))%R.
Proof.
  rewrite toR_heuristic. pose proof sqrt2_bounds as Hs.
  set (dx := Z.abs (a.1 - b.1)). set (dy := Z.abs (a.2 - b.2)).
  assert (Hx : 0 <= dx) by apply Z.abs_nonneg.
  assert (Hy : 0 <= dy) by apply Z.abs_nonneg.
  rewrite plus_IZR.
  assert (Hm : (0 <= IZR (Z.min dx dy) <= IZR dx /\ IZR (Z.min dx dy) <= IZR dy)%R).
  { repeat split; apply IZR_le; lia. }
  nra.
Qed.

(** The estimate drops by at most the cost of the step taken. *)
Lemma heuristic_consistent a a' b :
  adjacent a a' ->
  Surd.le (heuristic a b) (Surd.add (move_cost a a') (heuristic a' b)).
Proof.
  intros Hadj. apply SurdFacts.le_spec. rewrite SurdFacts.toR_add, !toR_heuristic.
  pose proof sqrt2_bounds as Hs.
  destruct (move_cost_adjacent a a' Hadj) as [[-> Horth]|[-> Hdiag]];
    rewrite ?SurdFacts.toR_of_Z, ?SurdFacts.toR_sqrt2;
    destruct a as [a1 a2], a' as [c1 c2], b as [b1 b2];
    destruct Hadj as (H1 & H2 & _); simpl in *;
    set (dx := Z.abs (a1 - b1)); set (dy := Z.abs (a2 - b2));
    set (ex := Z.abs (c1 - b1)); set (ey := Z.abs (c2 - b2)).
  - assert (Hk : exists kx ky k, dx = ex + kx /\ dy = ey + ky
                /\ Z.min dx dy = Z.min ex ey + k
                /\ (-1 <= kx <= 1) /\ (-1 <= ky <= 1) /\ (kx = 0 \/ ky = 0)
                /\ Z.min kx ky <= k <= Z.max kx ky).
    { exists (dx - ex), (dy - ey), (Z.min dx dy - Z.min ex ey).
      subst dx dy ex ey. lia. }
    destruct Hk as (kx & ky & k & -> & -> & -> & Hkx & Hky & Hz & Hk).
    rewrite !plus_IZR.
    assert (kx = -1 \/ kx = 0 \/ kx = 1) as [-> | [-> | ->]] by lia;
      assert (ky = -1 \/ ky = 0 \/ ky = 1) as [-> | [-> | ->]] by lia;
      assert (k = -1 \/ k = 0 \/ k = 1) as [-> | [-> | ->]] by lia;
      try lia; lra.
  - assert (Hk : exists kx ky k, dx = ex + kx /\ dy = ey + ky
                /\ Z.min dx dy = Z.min ex ey + k
                /\ (-1 <= kx <= 1) /\ (-1 <= ky <= 1)
                /\ Z.min kx ky <= k <= Z.max kx ky).
    { exists (dx - ex), (dy - ey), (Z.min dx dy - Z.min ex ey).
      subst dx dy ex ey. lia. }
    destruct Hk as (kx & ky & k & -> & -> & -> & Hkx & Hky & Hk).
    rewrite !plus_IZR.
    assert (kx = -1 \/ kx = 0 \/ kx = 1) as [-> | [-> | ->]] by lia;
      assert (ky = -1 \/ ky = 0 \/ ky = 1) as [-> | [-> | ->]] by lia;
      assert (k = -1 \/ k = 0 \/ k = 1) as [-> | [-> | ->]] by lia;
      try lia; lra.
Qed.

(** Hence it never exceeds the cost of a sequence of steps to the target. *)
Lemma heuristic_admissible a b p :
  walk a b p -> Surd.le (heuristic a b) (path_cost p).
Proof.
  intros H. induction H as [a|a a' b p Hstep Hp IH].
  - rewrite heuristic_self. apply SurdFacts.le_spec. simpl. lra.
  - rewrite (path_cost_cons _ _ _ _ _ Hp).
    pose proof (heuristic_consistent a a' b Hstep) as Hc.
    apply SurdFacts.le_spec. apply SurdFacts.le_spec in Hc, IH.
    rewrite SurdFacts.toR_add in *. lra.
Qed.



(** ** The order of the heap *)

Lemma key_inj e1 e2 : key e1 = key e2 -> e1 = e2.
Proof.
  destruct e1 as [[p1 c1] [x1 y1]], e2 as [[p2 c2] [x2 y2]]. simpl.
  intros [= Hp Hc Hx Hy].
  apply SurdFacts.toR_inj in Hp, Hc. apply eq_IZR in Hx, Hy. congruence.
Qed.

Lemma surd_eqb_toR x y : Surd.eqb x y = true <-> Surd.toR x = Surd.toR y.
Proof.
  rewrite SurdFacts.eqb_eq. split; [intros ->; reflexivity|apply SurdFacts.toR_inj].
Qed.

Lemma entry_ltb_spec e1 e2 : entry_ltb e1 e2 = true <-> lex4 (key e1) (key e2).
Proof.
  destruct e1 as [[p1 c1] [x1 y1]], e2 as [[p2 c2] [x2 y2]].
  unfold entry_ltb, cell_ltb, lex4, key; simpl.
  repeat (rewrite orb_true_iff || rewrite andb_true_iff).
  rewrite !SurdFacts.ltb_true, !surd_eqb_toR, !Z.ltb_lt, !Z.eqb_eq.
  split.
  - intros [H|[H1 [H|[H2 [H|[H3 H4]]]]]]; auto.
    + right. split; [exact H1|]. right. split; [exact H2|]. left. apply IZR_lt, H.
    + right. split; [exact H1|]. right. split; [exact H2|]. right.
      split; [congruence|apply IZR_lt, H4].
  - intros [H|[H1 [H|[H2 [H|[H3 H4]]]]]]; auto.
    + right. split; [exact H1|]. right. split; [exact H2|]. left. apply lt_IZR, H.
    + right. split; [exact H1|]. right. split; [exact H2|]. right.
      split; [apply eq_IZR, H3|apply lt_IZR, H4].
Qed.

Ltac lex4_solve :=
  repeat match goal with
  | k : (R * R * R * R)%type |- _ => destruct k as [[[? ?] ?] ?]
  end;
  unfold lex4 in *; lra.

Lemma lex4_asym a b : lex4 a b -> ~ lex4 b a.
Proof. lex4_solve. Qed.

Lemma lex4_trans a b c : lex4 a b -> lex4 b c -> lex4 a c.
Proof. lex4_solve. Qed.

Lemma lex4_neg_trans a b c : ~ lex4 a b -> ~ lex4 b c -> ~ lex4 a c.
Proof. lex4_solve. Qed.

Lemma lex4_total a b : ~ lex4 a b -> ~ lex4 b a -> a = b.
Proof.
  destruct a as [[[a1 a2] a3] a4], b as [[[b1 b2] b3] b4]. unfold lex4. intros H1 H2.
  assert (a1 = b1) by lra. assert (a2 = b2) by lra.
  assert (a3 = b3) by lra. assert (a4 = b4) by lra. congruence.
Qed.

Lemma entry_le_spec e1 e2 : entry_le e1 e2 <-> ~ lex4 (key e2) (key e1).
Proof.
  unfold entry_le. rewrite <- entry_ltb_spec. destruct (entry_ltb e2 e1); split; congruence.
Qed.

Lemma entry_le_antisym e1 e2 : entry_le e1 e2 -> entry_le e2 e1 -> e1 = e2.
Proof.
  rewrite !entry_le_spec. intros H1 H2. apply key_inj, lex4_total; assumption.
Qed.

Lemma entry_le_priority p1 c1 n1 p2 c2 n2 :
  entry_le (p1, c1, n1) (p2, c2, n2) -> Surd.le p1 p2.
Proof.
  rewrite entry_le_spec, SurdFacts.le_spec. unfold lex4; simpl. lra.
Qed.

(** [heappop] returns a least entry and the rest of the bag. *)
Lemma heappop_spec heap m rest :
  heappop heap = Some (m, rest) ->
  heap ≡ₚ m :: rest /\ forall e, e ∈ heap -> entry_le m e.
Proof.
  revert m rest. induction heap as [|e heap IH]; intros m rest H; simpl in H.
  - discriminate.
  - destruct (heappop heap) as [[m' rest']|] eqn:Hpop.
    + destruct (IH m' rest' eq_refl) as [Hperm Hmin].
      destruct (entry_ltb m' e) eqn:Hlt; injection H as <- <-.
      * split.
        { rewrite Hperm. apply perm_swap. }
        intros e' He'. apply elem_of_cons in He'. destruct He' as [->|He'].
        -- apply entry_le_spec. apply lex4_asym. apply entry_ltb_spec. exact Hlt.
        -- apply Hmin, He'.
      * split; [reflexivity|].
        intros e' He'. apply elem_of_cons in He'. destruct He' as [->|He'].
        -- apply entry_le_spec. intros C. exact (lex4_asym _ _ C C).
        -- apply entry_le_spec.
           apply (lex4_neg_trans _ (key m')).
           ++ apply entry_le_spec, Hmin, He'.
           ++ rewrite <- entry_ltb_spec. congruence.
    + destruct heap as [|e0 heap0].
      * injection H as <- <-. split; [reflexivity|].
        intros e' He'. apply list_elem_of_singleton in He'. subst e'.
        apply entry_le_spec. intros C. exact (lex4_asym _ _ C C).
      * simpl in Hpop. destruct (heappop heap0) as [[? ?]|]; [|discriminate].
        destruct (entry_ltb _ e0); discriminate.
Qed.

Lemma heappop_none heap : heappop heap = None -> heap = [].
Proof.
  destruct heap as [|e heap]; [reflexivity|]. simpl.
  destruct (heappop heap) as [[? ?]|]; [|discriminate].
  destruct (entry_ltb _ e); discriminate.
Qed.

(** The popped entry and, up to arrangement, the rest depend on the
    contents of the heap only. *)
Lemma heappop_perm heap1 heap2 :
  heap1 ≡ₚ heap2 ->
  match heappop heap1, heappop heap2 with
  | Some (m1, rest1), Some (m2, rest2) => m1 = m2 /\ rest1 ≡ₚ rest2
  | None, None => True
  | _, _ => False
  end.
Proof.
  intros Hperm.
  destruct (heappop heap1) as [[m1 rest1]|] eqn:H1;
    destruct (heappop heap2) as [[m2 rest2]|] eqn:H2.
  - apply heappop_spec in H1, H2. destruct H1 as [P1 M1], H2 as [P2 M2].
    assert (m1 = m2).
    { apply entry_le_antisym.
      - apply M1. rewrite Hperm, P2. left.
      - apply M2. rewrite <- Hperm, P1. left. }
    subst m2. split; [reflexivity|].
    apply (Permutation_cons_inv (a := m1)). rewrite <- P1, <- P2. exact Hperm.
  - apply heappop_none in H2. subst heap2. apply Permutation_nil_r in Hperm.
    subst heap1. discriminate.
  - apply heappop_none in H1. subst heap1. apply Permutation_nil in Hperm.
    subst heap2. discriminate.
  - exact I.
Qed.

(** ** Independence of the arrangement of the heap *)

Section Arrangement.
Variables push1 push2 : list entry -> entry -> list entry.
Hypothesis push1_ok : push_ok push1.
Hypothesis push2_ok : push_ok push2.

Lemma relax_equiv goal current current_cost s1 s2 neighbor :
  state_equiv s1 s2 ->
  state_equiv (relax push1 goal current current_cost s1 neighbor)
              (relax push2 goal current current_cost s2 neighbor).
Proof.
  intros (Ho & Hf & Hc). unfold relax. rewrite Hc.
  destruct (match cost_so_far s2 !! neighbor with
            | None => true
            | Some old => Surd.ltb _ old
            end).
  - split; simpl; [|rewrite Hf; auto].
    rewrite (push1_ok _ _), (push2_ok _ _), Ho. reflexivity.
  - split; auto.
Qed.

Lemma foldl_relax_equiv goal current current_cost neighbors s1 s2 :
  state_equiv s1 s2 ->
  state_equiv (foldl (relax push1 goal current current_cost) s1 neighbors)
              (foldl (relax push2 goal current current_cost) s2 neighbors).
Proof.
  revert s1 s2. induction neighbors as [|nb neighbors IH]; intros s1 s2 H; simpl.
  - exact H.
  - apply IH, relax_equiv, H.
Qed.

Lemma search_equiv grid goal fuel s1 s2 :
  state_equiv s1 s2 ->
  outcome_equiv (search push1 grid goal fuel s1) (search push2 grid goal fuel s2).
Proof.
  revert s1 s2. induction fuel as [|fuel IH]; intros s1 s2 (Ho & Hf & Hc); simpl.
  - exact I.
  - pose proof (heappop_perm _ _ Ho) as Hpop.
    destruct (heappop (open_set s1)) as [[[[p1 c1] n1] rest1]|];
      destruct (heappop (open_set s2)) as [[[[p2 c2] n2] rest2]|];
      try contradiction.
    + destruct Hpop as [[= -> -> ->] Hrest].
      destruct (decide (n2 = goal)).
      * split; simpl; auto.
      * destruct (get_neighbors n2 grid) as [neighbors| |]; simpl; auto.
        apply IH, foldl_relax_equiv. split; simpl; auto.
    + split; auto.
Qed.

Lemma astar_with_equiv fuel start goal grid :
  astar_with push1 fuel start goal grid = astar_with push2 fuel start goal grid.
Proof.
  unfold astar_with.
  pose proof (search_equiv grid goal fuel (initial start) (initial start)) as H.
  destruct (search push1 grid goal fuel (initial start)) as [s1| |];
    destruct (search push2 grid goal fuel (initial start)) as [s2| |];
    simpl in *; try (exfalso; apply H; split; auto; fail).
  - destruct H as (_ & Hf & _); [split; auto|]. rewrite Hf. reflexivity.
  - f_equal. apply H. split; auto.
  - reflexivity.
Qed.
End Arrangement.

(** C9. [astar] is a function of its three arguments: its definition has
    no other input, and the one ingredient that an implementation leaves
    open, the arrangement of the items inside the heap, has no influence:
    any two correct heap insertions lead to the same result, path for path
    or no-path signal alike. *)
Theorem astar_deterministic (push1 push2 : list entry -> entry -> list entry)
    (fuel : nat) (start goal : cell) (grid : ndarray) :
  push_ok push1 -> push_ok push2 ->
  astar_with push1 fuel start goal grid = astar_with push2 fuel start goal grid.
Proof. intros H1 H2. apply astar_with_equiv; assumption. Qed.

Lemma astar_deterministic_witness :
  push_ok heappush /\ push_ok (fun heap e => heap ++ [e]) /\
  astar_with (fun heap e => heap ++ [e]) 50 (0, 0) (1, 1) (of_rows [[0;1]; [0;0]])
  = astar 50 (0, 0) (1, 1) (of_rows [[0;1]; [0;0]]).
Proof.
  assert (H1 : push_ok heappush) by (intros heap e; reflexivity).
  assert (H2 : push_ok (fun heap e => heap ++ [e])).
  { intros heap e. symmetry. apply Permutation_cons_append. }
  split; [exact H1|]. split; [exact H2|].
  exact (astar_deterministic _ _ 50 (0, 0) (1, 1) (of_rows [[0;1]; [0;0]]) H2 H1).
Defined.

(** When the start is the goal the first pop leaves the loop with
    [came_from] still empty, and the test [goal not in came_from] turns the
    query into the no-path signal. *)
Lemma astar_same_cell (fuel : nat) (c : cell) (grid : ndarray) :
  astar (S fuel) c c grid = Return None.
Proof.
  unfold astar, astar_with. simpl.
  destruct (decide (c = c)) as [_|Hne]; [|contradiction]. simpl.
  rewrite lookup_empty. reflexivity.
Qed.

(** ** The bound on the work of the search *)

Lemma count_below_length x l : (count_below x l <= length l)%nat.
Proof. induction l as [|t l IH]; simpl; [lia|]. destruct (Surd.ltb t x); lia. Qed.

Lemma count_below_mono x y l :
  Surd.le x y -> (count_below x l <= count_below y l)%nat.
Proof.
  intros Hxy. induction l as [|t l IH]; simpl; [lia|].
  destruct (Surd.ltb t x) eqn:E1; destruct (Surd.ltb t y) eqn:E2; try lia.
  exfalso. surd.
Qed.

Lemma count_below_lt x y l :
  Surd.lt x y -> x ∈ l -> (count_below x l < count_below y l)%nat.
Proof.
  intros Hxy Hin. induction l as [|t l IH]; [apply elem_of_nil in Hin; contradiction|].
  simpl. apply elem_of_cons in Hin. destruct Hin as [<-|Hin].
  - assert (E1 : Surd.ltb x x = false) by (apply SurdFacts.ltb_false; lra).
    rewrite E1, Hxy.
    assert (Hle : Surd.le x y) by surd.
    pose proof (count_below_mono x y l Hle) as Hm. lia.
  - specialize (IH Hin).
    destruct (Surd.ltb t x) eqn:E1; destruct (Surd.ltb t y) eqn:E2; try lia.
    exfalso. surd.
Qed.

Section Search.
Variable grid : ndarray.
Variables start goal : cell.

Local Abbreviation valid := (valid grid start).
Local Abbreviation cells := (cells grid).
Local Abbreviation universe := (universe grid start).
Local Abbreviation small := (small grid).
Local Abbreviation small_costs := (small_costs grid).
Local Abbreviation rank := (rank grid).
Local Abbreviation pot := (pot grid).
Local Abbreviation potential := (potential grid).
Local Abbreviation measure := (measure grid start).
Local Abbreviation fuel_bound := (fuel_bound grid).
Local Abbreviation reached := (reached grid start).
Local Abbreviation priority_ok := (priority_ok goal).
Local Abbreviation entry_ok := (entry_ok grid start goal).
Local Abbreviation inv0 := (inv0 grid start goal).
Local Abbreviation inv_start := (inv_start grid start goal).
Local Abbreviation inv_small := (inv_small grid start goal).
Local Abbreviation inv_open := (inv_open grid start goal).
Local Abbreviation inv_from := (inv_from grid start goal).
Local Abbreviation inv_dom := (inv_dom grid start goal).
Local Abbreviation inv_reach := (inv_reach grid start goal).
Local Abbreviation extends := (extends grid start goal).
Local Abbreviation ext_open := (ext_open grid start goal).
Local Abbreviation ext_cost := (ext_cost grid start goal).
Local Abbreviation ext_new := (ext_new grid start goal).
Local Abbreviation ext_measure := (ext_measure grid start goal).
Local Abbreviation covered := (covered grid goal).
Local Abbreviation inv_cover := (inv_cover grid goal).
Local Abbreviation inv := (inv grid start goal).
Local Abbreviation optimal := (optimal grid start goal).

Lemma length_cells : length cells = (shape0 grid * shape1 grid)%nat.
Proof.
  unfold cells.
  assert (H : forall (l : list Z) (k : nat) (f : Z -> list cell),
             (forall i, length (f i) = k) -> length (l ≫= f) = (length l * k)%nat).
  { intros l k f Hf. induction l as [|i l IH]; [reflexivity|].
    rewrite bind_cons, length_app, Hf, IH. reflexivity. }
  rewrite (H _ (shape1 grid)).
  - rewrite length_seqZ. lia.
  - intros i. rewrite (H _ 1%nat); [rewrite length_seqZ; lia|reflexivity].
Qed.

Lemma length_universe : length universe = cell_count grid.
Proof. unfold universe, cell_count. simpl. rewrite length_cells. reflexivity. Qed.

Lemma in_bounds_cells c : in_bounds grid c -> c ∈ cells.
Proof.
  destruct c as [i j]. intros [Hi Hj]; simpl in *. unfold cells.
  apply list_elem_of_bind. exists i. split; [|apply elem_of_seqZ; lia].
  apply list_elem_of_bind. exists j. split; [left|apply elem_of_seqZ; lia].
Qed.

Lemma valid_universe c : valid c -> c ∈ universe.
Proof.
  intros [->|H]; [left|right; apply in_bounds_cells, H].
Qed.

Lemma small_in_costs x : small x -> x ∈ small_costs.
Proof.
  destruct x as [a b]. intros (Ha & Hb & Hab). cbn [Surd.rat Surd.irr] in *.
  unfold small_costs.
  apply list_elem_of_bind. exists a. split; [|apply elem_of_seqZ; lia].
  apply list_elem_of_bind. exists b. split; [left|apply elem_of_seqZ; lia].
Qed.

Lemma rank_bound x : (rank x <= length small_costs)%nat.
Proof. apply count_below_length. Qed.

Lemma rank_lt x y : small x -> Surd.lt x y -> (rank x < rank y)%nat.
Proof. intros Hx Hxy. apply count_below_lt; [exact Hxy|apply small_in_costs, Hx]. Qed.

Lemma pot_bound cs n : (pot cs n <= S (length small_costs))%nat.
Proof. unfold pot. destruct (cs !! n); [pose proof (rank_bound t)|]; lia. Qed.

Lemma potential_bound cs l :
  (potential cs l <= length l * S (length small_costs))%nat.
Proof.
  induction l as [|n l IH]; simpl; [lia|].
  pose proof (pot_bound cs n). unfold potential in *. lia.
Qed.

(** Lowering the recorded cost of one cell lowers the potential. *)
Lemma potential_insert cs n x l :
  (pot (<[n := x]> cs) n < pot cs n)%nat ->
  (potential (<[n := x]> cs) l <= potential cs l)%nat
  /\ (n ∈ l -> (potential (<[n := x]> cs) l < potential cs l)%nat).
Proof.
  intros Hpot. induction l as [|m l [IH1 IH2]]; simpl.
  - split; [lia|]. intros H. apply elem_of_nil in H. contradiction.
  - assert (Hm : (pot (<[n := x]> cs) m <= pot cs m)%nat
                 /\ (m = n -> (pot (<[n := x]> cs) m < pot cs m)%nat)).
    { destruct (decide (m = n)) as [->|Hne].
      - split; [lia|intros _; exact Hpot].
      - split; [|contradiction]. unfold pot. rewrite lookup_insert_ne by congruence. lia. }
    destruct Hm as [Hm1 Hm2]. unfold potential in *. simpl. split; [lia|].
    intros H. apply elem_of_cons in H. destruct H as [->|H].
    + specialize (Hm2 eq_refl). lia.
    + specialize (IH2 H). lia.
Qed.

(** ** Invariants of the search loop *)

Lemma leq_map_refl cs : leq_map cs cs.
Proof. intros m x H. exists x. split; [exact H|]. apply SurdFacts.le_spec. lra. Qed.

Lemma leq_map_trans cs1 cs2 cs3 : leq_map cs1 cs2 -> leq_map cs2 cs3 -> leq_map cs1 cs3.
Proof.
  intros H12 H23 m x H. destruct (H12 m x H) as (x2 & H2 & L2).
  destruct (H23 m x2 H2) as (x3 & H3 & L3). exists x3. split; [exact H3|]. surd.
Qed.

Lemma extends_refl st : extends st st.
Proof.
  split; auto using leq_map_refl.
Qed.

Lemma extends_trans st1 st2 st3 : extends st1 st2 -> extends st2 st3 -> extends st1 st3.
Proof.
  intros [O1 C1 N1 M1] [O2 C2 N2 M2]. split.
  - auto.
  - eapply leq_map_trans; eassumption.
  - intros u x' H. destruct (N2 u x' H) as [H2|H2]; [|right; exact H2].
    destruct (N1 u x' H2) as [H1|H1]; [left; exact H1|right; auto].
  - lia.
Qed.

Lemma reached_mono cs cs' c n : leq_map cs cs' -> reached cs c n -> reached cs' c n.
Proof.
  intros Hle [(x & Hx & Lx) (anc & Hnd & Hval & Hbelow & Hc)]. split.
  - destruct (Hle n x Hx) as (x' & Hx' & Lx'). exists x'. split; [exact Hx'|]. surd.
  - exists anc. split; [exact Hnd|]. split; [exact Hval|]. split; [|exact Hc].
    intros m Hm. destruct (Hbelow m Hm) as (y & Hy & Ly).
    destruct (Hle m y Hy) as (y' & Hy' & Ly'). exists y'. split; [exact Hy'|]. surd.
Qed.

Lemma toR_nonneg x : 0 <= Surd.rat x -> 0 <= Surd.irr x -> (0 <= Surd.toR x)%R.
Proof.
  intros Ha Hb. unfold Surd.toR. apply IZR_le in Ha, Hb.
  pose proof SurdFacts.sqrt2_pos. nra.
Qed.

Lemma move_cost_coeffs a b :
  adjacent a b ->
  0 <= Surd.rat (move_cost a b) /\ 0 <= Surd.irr (move_cost a b)
  /\ Surd.rat (move_cost a b) + Surd.irr (move_cost a b) = 1.
Proof.
  intros H. destruct (move_cost_adjacent a b H) as [[-> _]|[-> _]]; simpl; lia.
Qed.

Lemma chain_snoc R a b c p : chain R a b p -> R b c -> chain R a c (p ++ [c]).
Proof.
  intros H Hbc. induction H as [a|a a' b p Hstep Hp IH]; simpl.
  - apply chain_step with (b := c); [exact Hbc|apply chain_one].
  - apply chain_step with (b := a'); [exact Hstep|exact (IH Hbc)].
Qed.

Lemma initial_inv0 : inv0 (initial start).
Proof.
  split; simpl.
  - apply lookup_singleton_eq.
  - intros n x H. apply lookup_singleton_Some in H. destruct H as [_ <-].
    unfold small, cell_count. change (Surd.rat Surd.zero) with 0.
    change (Surd.irr Surd.zero) with 0. lia.
  - intros e He. apply list_elem_of_singleton in He. subst e. split; simpl.
    + right. split; reflexivity.
    + split.
      * exists Surd.zero. split; [apply lookup_singleton_eq|apply SurdFacts.le_spec; lra].
      * exists []. split; [apply NoDup_singleton|]. split.
        { intros m Hm. apply list_elem_of_singleton in Hm. left. exact Hm. }
        split; [intros m Hm; apply elem_of_nil in Hm; contradiction|].
        simpl. lia.
  - intros n m H. rewrite lookup_empty in H. discriminate.
  - intros n [x H]. apply lookup_singleton_Some in H. left. symmetry. apply H.
  - intros n [x H]. apply lookup_singleton_Some in H. destruct H as [<- _].
    exists [start]. apply chain_one.
Qed.

(** The branch of the loop body that records a new cost for [nb]. *)
Lemma relax_update st c n nb :
  inv0 st -> reached (cost_so_far st) c n -> neighbor_of grid n nb ->
  (forall old, cost_so_far st !! nb = Some old ->
     Surd.lt (Surd.add c (move_cost n nb)) old) ->
  let new := Surd.add c (move_cost n nb) in
  let st' := State (heappush (open_set st) (Surd.add new (heuristic nb goal), new, nb))
                   (<[nb := n]> (came_from st))
                   (<[nb := new]> (cost_so_far st)) in
  inv0 st' /\ extends st st'.
Proof.
  intros Hinv Hreach Hnb Hupd new st'.
  pose proof Hnb as (l & Hl & Hin).
  destruct (get_neighbors_any _ _ _ _ Hl Hin) as (Hadj & Hbnd & Hocc).
  destruct (move_cost_coeffs n nb Hadj) as (Hw1 & Hw2 & Hw3).
  pose proof (toR_move_cost n nb Hadj) as Hw.
  destruct Hreach as [(xn & Hxn & Lxn) (anc & Hnd & Hval & Hbelow & Hc1 & Hc2 & Hc3)].
  pose proof (toR_nonneg c Hc1 Hc2) as Hcpos.
  assert (Hnew : Surd.toR new = (Surd.toR c + Surd.toR (move_cost n nb))%R)
    by apply SurdFacts.toR_add.
  destruct Hinv as [Istart Ismall Iopen Ifrom Idom Ireach].
  assert (A1 : forall m, m ∈ n :: anc ->
                 exists x, cost_so_far st !! m = Some x /\ Surd.le x c).
  { intros m Hm. apply elem_of_cons in Hm. destruct Hm as [->|Hm].
    - exists xn. split; assumption.
    - destruct (Hbelow m Hm) as (x & Hx & Lx). exists x. split; [exact Hx|]. surd. }
  assert (A2 : nb ∉ n :: anc).
  { intros Hm. destruct (A1 nb Hm) as (x & Hx & Lx). specialize (Hupd x Hx).
    fold new in Hupd. surd. }
  assert (A3 : nb <> start).
  { intros ->. specialize (Hupd _ Istart). fold new in Hupd.
    surd. }
  assert (A4 : small new).
  { assert (Hlen : (length (nb :: n :: anc) <= length universe)%nat).
    { apply submseteq_length, NoDup_submseteq.
      - apply NoDup_cons. split; assumption.
      - intros m Hm. apply valid_universe. apply elem_of_cons in Hm.
        destruct Hm as [->|Hm]; [right; exact Hbnd|apply Hval, Hm]. }
    rewrite length_universe in Hlen. cbn [length] in Hlen.
    unfold small, new. cbn [Surd.add Surd.rat Surd.irr]. lia. }
  assert (A5 : leq_map (cost_so_far st) (cost_so_far st')).
  { intros m x Hx. simpl. destruct (decide (m = nb)) as [->|Hne].
    - exists new. split; [apply lookup_insert_eq|].
      specialize (Hupd x Hx). fold new in Hupd. surd.
    - exists x. split; [rewrite lookup_insert_ne by congruence; exact Hx|].
      apply SurdFacts.le_spec; lra. }
  assert (A6 : n <> nb).
  { intros ->. apply A2. left. }
  subst st'. split; [split|split]; cbn [open_set came_from cost_so_far].
  - rewrite lookup_insert_ne by congruence. exact Istart.
  - intros k x Hk. destruct (decide (k = nb)) as [->|Hne].
    + rewrite lookup_insert_eq in Hk. injection Hk as <-. exact A4.
    + rewrite lookup_insert_ne in Hk by congruence. eapply Ismall, Hk.
  - intros e He. apply elem_of_cons in He. destruct He as [->|He].
    + split; simpl; [left; reflexivity|]. split.
      * exists new. split; [apply lookup_insert_eq|apply SurdFacts.le_spec; lra].
      * exists (n :: anc). split; [apply NoDup_cons; split; assumption|].
        split.
        { intros m Hm. apply elem_of_cons in Hm.
          destruct Hm as [->|Hm]; [right; exact Hbnd|apply Hval, Hm]. }
        split.
        { intros m Hm. destruct (A1 m Hm) as (x & Hx & Lx). exists x. split.
          - rewrite lookup_insert_ne; [exact Hx|]. intros <-. exact (A2 Hm).
          - surd. }
        unfold new; simpl. lia.
    + destruct (Iopen e He) as [Hp Hr]. split; [exact Hp|].
      eapply reached_mono; [exact A5|exact Hr].
  - intros k m Hkm. destruct (decide (k = nb)) as [->|Hne].
    + rewrite lookup_insert_eq in Hkm. injection Hkm as <-. split; [exact Hnb|].
      exists xn, new. split; [rewrite lookup_insert_ne by congruence; exact Hxn|].
      split; [apply lookup_insert_eq|]. fold new. surd_to_R. rewrite Hnew. lra.
    + rewrite lookup_insert_ne in Hkm by congruence.
      destruct (Ifrom k m Hkm) as (Hnbr & xm & xk & Hm & Hk & L). split; [exact Hnbr|].
      destruct (decide (m = nb)) as [->|Hne'].
      * exists new, xk. split; [apply lookup_insert_eq|].
        split; [rewrite lookup_insert_ne by congruence; exact Hk|].
        specialize (Hupd xm Hm). fold new in Hupd. surd.
      * exists xm, xk. rewrite !lookup_insert_ne by congruence. auto.
  - intros k Hk. destruct (decide (k = nb)) as [->|Hne].
    + right. rewrite lookup_insert_eq. eauto.
    + rewrite lookup_insert_ne in Hk by congruence.
      destruct (Idom k Hk) as [->|Hcf]; [left; reflexivity|right].
      rewrite lookup_insert_ne by congruence. exact Hcf.
  - intros k Hk. destruct (decide (k = nb)) as [->|Hne].
    + destruct (Ireach n) as [p Hp]; [eauto|].
      exists (p ++ [nb]). eapply chain_snoc; eassumption.
    + rewrite lookup_insert_ne in Hk by congruence. apply Ireach, Hk.
  - intros e He. right. exact He.
  - exact A5.
  - intros u x' Hu. destruct (decide (u = nb)) as [->|Hne].
    + rewrite lookup_insert_eq in Hu. injection Hu as <-. right. left.
    + rewrite lookup_insert_ne in Hu by congruence. left. exact Hu.
  - unfold measure, heappush. cbn [open_set cost_so_far length].
    assert (Hpot : (pot (<[nb := new]> (cost_so_far st)) nb < pot (cost_so_far st) nb)%nat).
    { unfold pot at 1. rewrite lookup_insert_eq. unfold pot.
      destruct (cost_so_far st !! nb) as [old|] eqn:Hold.
      - apply rank_lt; [exact A4|]. apply Hupd. reflexivity.
      - pose proof (rank_bound new). lia. }
    destruct (potential_insert _ _ _ universe Hpot) as [_ Hlt].
    specialize (Hlt (valid_universe nb (or_intror Hbnd))). lia.
Qed.

Lemma relax_spec st c n nb :
  inv0 st -> reached (cost_so_far st) c n -> neighbor_of grid n nb ->
  inv0 (relax heappush goal n c st nb)
  /\ extends st (relax heappush goal n c st nb)
  /\ exists x', cost_so_far (relax heappush goal n c st nb) !! nb = Some x'
                /\ Surd.le x' (Surd.add c (move_cost n nb)).
Proof.
  intros Hinv Hreach Hnb. unfold relax.
  destruct (cost_so_far st !! nb) as [old|] eqn:Hold.
  - destruct (Surd.ltb (Surd.add c (move_cost n nb)) old) eqn:Hlt.
    + destruct (relax_update st c n nb Hinv Hreach Hnb) as [H1 H2].
      { intros old' H. rewrite Hold in H. injection H as <-. exact Hlt. }
      split; [exact H1|]. split; [exact H2|]. simpl.
      eexists. split; [apply lookup_insert_eq|apply SurdFacts.le_spec; lra].
    + split; [exact Hinv|]. split; [apply extends_refl|].
      exists old. split; [exact Hold|exact Hlt].
  - destruct (relax_update st c n nb Hinv Hreach Hnb) as [H1 H2].
    { intros old' H. rewrite Hold in H. discriminate. }
    split; [exact H1|]. split; [exact H2|]. simpl.
    eexists. split; [apply lookup_insert_eq|apply SurdFacts.le_spec; lra].
Qed.

(** The whole [for] loop over the neighbours of the popped cell. *)
Lemma expand_spec ns st c n :
  inv0 st -> reached (cost_so_far st) c n ->
  (forall nb, nb ∈ ns -> neighbor_of grid n nb) ->
  inv0 (foldl (relax heappush goal n c) st ns)
  /\ extends st (foldl (relax heappush goal n c) st ns)
  /\ forall nb, nb ∈ ns ->
       exists x', cost_so_far (foldl (relax heappush goal n c) st ns) !! nb = Some x'
                  /\ Surd.le x' (Surd.add c (move_cost n nb)).
Proof.
  revert st. induction ns as [|nb ns IH]; intros st Hinv Hreach Hns; simpl.
  - split; [exact Hinv|]. split; [apply extends_refl|].
    intros nb Hnb. apply elem_of_nil in Hnb. contradiction.
  - destruct (relax_spec st c n nb Hinv Hreach) as (Hinv1 & Hext1 & x1 & Hx1 & Lx1).
    { apply Hns. left. }
    destruct (IH (relax heappush goal n c st nb) Hinv1) as (Hinv2 & Hext2 & Hrest).
    { eapply reached_mono; [apply Hext1|exact Hreach]. }
    { intros nb' Hnb'. apply Hns. right. exact Hnb'. }
    split; [exact Hinv2|]. split; [eapply extends_trans; eassumption|].
    intros nb' Hnb'. apply elem_of_cons in Hnb'. destruct Hnb' as [->|Hnb'].
    + destruct (ext_cost _ _ Hext2 nb x1 Hx1) as (x2 & Hx2 & Lx2).
      exists x2. split; [exact Hx2|]. surd.
    + apply Hrest, Hnb'.
Qed.

(** [get_neighbors] either returns or raises [IndexError]. *)
Lemma visit_outcome x y acc d :
  (exists l, result (visit grid x y acc d) = Return l)
  \/ result (visit grid x y acc d) = Raise IndexError.
Proof.
  destruct d as [dx dy]. unfold visit, getitem.
  destruct ((dx =? 0) && (dy =? 0)); [left; eexists; reflexivity|].
  destruct ((0 <=? x + dx) && (x + dx <? Z.of_nat (shape0 grid))
            && ((0 <=? y + dy) && (y + dy <? Z.of_nat (shape1 grid))));
    [|left; eexists; reflexivity].
  destruct (negb (dx =? 0) && negb (dy =? 0)); unfold mbind, io_bind; simpl.
  all: repeat match goal with
       | |- context [norm_index ?n ?i] => destruct (norm_index n i); simpl
       | |- context [item ?g ?a ?b =? ?k] => destruct (item g a b =? k); simpl
       end.
  all: try (left; eexists; reflexivity); right; reflexivity.
Qed.

Lemma for_each_outcome x y ds acc :
  (exists l, result (for_each (visit grid x y) acc ds) = Return l)
  \/ result (for_each (visit grid x y) acc ds) = Raise IndexError.
Proof.
  revert acc. induction ds as [|d ds IH]; intros acc.
  - left. eexists. reflexivity.
  - rewrite for_each_cons.
    destruct (visit_outcome x y acc d) as [[l Hl]|Hr].
    + destruct (io_bind_return _ (fun acc' => for_each (visit grid x y) acc' ds) _ Hl)
        as [-> _].
      apply IH.
    + right. unfold mbind, io_bind. rewrite Hr. reflexivity.
Qed.

Lemma get_neighbors_outcome node :
  (exists l, get_neighbors node grid = Return l)
  \/ get_neighbors node grid = Raise IndexError.
Proof. destruct node as [x y]. apply for_each_outcome. Qed.

(** ** The frontier covers every path to the goal *)

Lemma initial_inv : inv (initial start).
Proof.
  split; [apply initial_inv0|].
  intros u x Q Hu HQ. simpl in Hu. apply lookup_singleton_Some in Hu.
  destruct Hu as [<- <-]. exists Surd.zero, Surd.zero, start, Q.
  split; [left|]. split; [exact HQ|]. split; [lia|apply SurdFacts.le_spec; lra].
Qed.

Lemma chain_uncons R a b p :
  chain R a b p -> a <> b ->
  exists a' q, p = a :: q /\ R a a' /\ chain R a' b q.
Proof.
  intros H Hne. destruct H as [a|a a' b p Hstep Hp]; [contradiction|eauto].
Qed.

Lemma chain_length R a b p : chain R a b p -> (1 <= length p)%nat.
Proof. intros H. destruct H; simpl; lia. Qed.

(** One iteration that pops a cell other than the goal. *)
Lemma iteration_spec st p c n rest ns :
  inv st ->
  heappop (open_set st) = Some ((p, c, n), rest) ->
  n <> goal ->
  get_neighbors n grid = Return ns ->
  inv (foldl (relax heappush goal n c) (State rest (came_from st) (cost_so_far st)) ns)
  /\ (measure (foldl (relax heappush goal n c)
                     (State rest (came_from st) (cost_so_far st)) ns)
      < measure st)%nat.
Proof.
  intros [Hinv Hcov] Hpop Hne Hns.
  apply heappop_spec in Hpop. destruct Hpop as [Hperm Hmin].
  set (st1 := State rest (came_from st) (cost_so_far st)).
  assert (Hsub : forall e, e ∈ rest -> e ∈ open_set st).
  { intros e He. rewrite Hperm. right. exact He. }
  assert (Hinv1 : inv0 st1).
  { destruct Hinv as [I1 I2 I3 I4 I5 I6]. split; simpl; auto. }
  assert (Hreach : reached (cost_so_far st1) c n).
  { apply (inv_open _ Hinv (p, c, n)). rewrite Hperm. left. }
  assert (Hm1 : S (measure st1) = measure st).
  { unfold measure; simpl. rewrite Hperm. simpl. lia. }
  destruct (expand_spec ns st1 c n Hinv1 Hreach) as (Hinv' & Hext & Hnbs).
  { intros nb Hnb. exists ns. split; assumption. }
  set (st' := foldl (relax heappush goal n c) st1 ns) in *.
  split; [split; [exact Hinv'|]|pose proof (ext_measure _ _ Hext); lia].
  assert (Hk : forall k u x' Q,
    (length Q <= k)%nat -> cost_so_far st' !! u = Some x' -> legal_path grid u goal Q ->
    covered (open_set st') (Surd.add x' (path_cost Q)) (length Q)).
  { induction k as [|k IH]; intros u x' Q Hlen Hu HQ.
    { pose proof (chain_length _ _ _ _ HQ). lia. }
    destruct (ext_new _ _ Hext u x' Hu) as [Hold|Hnew].
    2:{ exists (Surd.add x' (heuristic u goal)), x', u, Q.
        split; [exact Hnew|]. split; [exact HQ|]. split; [lia|apply SurdFacts.le_spec; lra]. }
    destruct (Hcov u x' Q Hold HQ) as (p0 & c0 & v & S & Hin & HS & HlenS & Hcost).
    rewrite Hperm in Hin. apply elem_of_cons in Hin. destruct Hin as [Heq|Hin].
    2:{ exists p0, c0, v, S. split; [apply (ext_open _ _ Hext), Hin|]. auto. }
    injection Heq as -> -> ->.
    destruct (chain_uncons _ _ _ _ HS Hne) as (v2 & S2 & -> & Hstep & HS2).
    assert (Hv2 : v2 ∈ ns).
    { destruct Hstep as (l & Hl & Hv2). rewrite Hns in Hl. injection Hl as <-. exact Hv2. }
    destruct (Hnbs v2 Hv2) as (x2 & Hx2 & Lx2).
    simpl in HlenS.
    destruct (IH v2 x2 S2) as (p3 & c3 & v3 & S3 & Hin3 & HS3 & Hlen3 & Hcost3);
      [lia|exact Hx2|exact HS2|].
    exists p3, c3, v3, S3. split; [exact Hin3|]. split; [exact HS3|]. split; [lia|].
    rewrite (path_cost_cons _ _ _ _ _ HS2) in Hcost. surd. }
  intros u x' Q Hu HQ. apply (Hk (length Q) u); [lia|exact Hu|exact HQ].
Qed.

(** ** The two loops *)

Lemma priority_ok_bound p c n :
  priority_ok p c n -> Surd.le p (Surd.add c (heuristic n goal)).
Proof.
  pose proof (heuristic_nonneg n goal).
  intros [->|[-> ->]]; apply SurdFacts.le_spec; rewrite ?SurdFacts.toR_add, ?SurdFacts.toR_zero; lra.
Qed.

Lemma priority_ok_goal p c : priority_ok p c goal -> Surd.toR p = Surd.toR c.
Proof.
  intros [->|[-> ->]]; [|reflexivity].
  rewrite SurdFacts.toR_add, heuristic_self, SurdFacts.toR_zero. lra.
Qed.

(** The search loop: with too little fuel it runs out of it; otherwise it
    returns a state that satisfies the invariant and holds an optimal
    cost for the goal, unless reading the neighbours of an out-of-bounds
    start raised. *)
Lemma search_spec fuel st :
  inv st ->
  (search heappush grid goal fuel st = OutOfFuel /\ (fuel <= measure st)%nat)
  \/ (exists st', search heappush grid goal fuel st = Return st'
                  /\ inv0 st' /\ optimal st')
  \/ (search heappush grid goal fuel st = Raise IndexError
      /\ get_neighbors start grid = Raise IndexError).
Proof.
  revert st. induction fuel as [|fuel IH]; intros st Hinv; simpl.
  { left. split; [reflexivity|lia]. }
  destruct (heappop (open_set st)) as [[[[p c] n] rest]|] eqn:Hpop.
  2:{ right. left. exists st. split; [reflexivity|]. split; [apply Hinv|].
      intros P HP. apply heappop_none in Hpop. destruct Hinv as [Hinv Hcov].
      destruct (Hcov start Surd.zero P (inv_start _ Hinv) HP) as (? & ? & ? & ? & Hin & _).
      rewrite Hpop in Hin. apply elem_of_nil in Hin. contradiction. }
  pose proof (heappop_spec _ _ _ Hpop) as [Hperm Hmin].
  assert (Hpopped : entry_ok (cost_so_far st) (p, c, n)).
  { apply (inv_open _ (proj1 Hinv)). rewrite Hperm. left. }
  destruct (decide (n = goal)) as [->|Hne].
  - right. left. eexists. split; [reflexivity|]. destruct Hinv as [Hinv Hcov]. split.
    + destruct Hinv as [I1 I2 I3 I4 I5 I6]. split; simpl; auto.
      intros e He. apply I3. rewrite Hperm. right. exact He.
    + intros P HP. simpl.
      destruct (Hcov start Surd.zero P (inv_start _ Hinv) HP)
        as (p0 & c0 & v & S & Hin & HS & _ & Hcost).
      destruct Hpopped as [Hprio [(x & Hx & Lx) _]]. simpl in *.
      exists x. split; [exact Hx|].
      pose proof (priority_ok_goal _ _ Hprio) as Hpc.
      pose proof (entry_le_priority _ _ _ _ _ _ (Hmin _ Hin)) as Hpp0.
      pose proof (priority_ok_bound _ _ _ (proj1 (inv_open _ Hinv _ Hin))) as Hp0.
      pose proof (heuristic_admissible _ _ _ (legal_path_walk _ _ _ _ HS)) as Hadm.
      simpl in Hp0. surd.
  - destruct (get_neighbors_outcome n) as [[ns Hns]|Hraise].
    + rewrite Hns. simpl.
      destruct (iteration_spec st p c n rest ns Hinv Hpop Hne Hns) as [Hinv' Hlt].
      destruct (IH _ Hinv') as [[Hout Hle]|[Hret|Hrz]].
      * left. split; [exact Hout|lia].
      * right. left. exact Hret.
      * right. right. exact Hrz.
    + rewrite Hraise. simpl. right. right. split; [reflexivity|].
      destruct Hpopped as [_ [_ (anc & _ & Hval & _)]]. simpl in Hval.
      destruct (Hval n) as [->|Hin]; [left|exact Hraise|].
      destruct n as [x y]. rewrite (get_neighbors_in_bounds _ _ _ Hin) in Hraise.
      discriminate.
Qed.

Lemma measure_initial : (measure (initial start) < fuel_bound)%nat.
Proof.
  unfold measure, fuel_bound.
  change (length (open_set (initial start))) with 1%nat.
  pose proof (potential_bound (cost_so_far (initial start)) universe) as H.
  rewrite length_universe in H. lia.
Qed.

Lemma toR_path_cost_snoc R a b c p :
  chain R a b p ->
  Surd.toR (path_cost (p ++ [c]))
  = (Surd.toR (path_cost p) + Surd.toR (move_cost b c))%R.
Proof.
  intros H. induction H as [a|a a' b p Hstep Hp IH]; simpl.
  - rewrite SurdFacts.toR_add, SurdFacts.toR_zero. lra.
  - destruct (chain_head _ _ _ _ Hp) as [q ->]. simpl in *.
    rewrite !SurdFacts.toR_add, IH. lra.
Qed.

(** The reconstruction loop from a cell with a recorded cost [x]: short
    of fuel it runs out of it; otherwise it returns the cells from
    [current] back to, but without, the start, and these form with the
    start a legal path of cost at most [x]. *)
Lemma reconstruct_spec st :
  inv0 st ->
  forall fuel current x acc,
    cost_so_far st !! current = Some x ->
    (reconstruct fuel (came_from st) start current acc = OutOfFuel
     /\ (fuel <= rank x)%nat)
    \/ exists q,
         reconstruct fuel (came_from st) start current acc = Return (acc ++ q)
         /\ legal_path grid start current (reverse (q ++ [start]))
         /\ Surd.le (path_cost (reverse (q ++ [start]))) x.
Proof.
  intros Hinv. induction fuel as [|fuel IH]; intros current x acc Hx; simpl.
  { left. split; [reflexivity|lia]. }
  destruct (decide (current = start)) as [->|Hne].
  - right. exists []. rewrite app_nil_r. split; [reflexivity|].
    split; [apply chain_one|].
    rewrite (inv_start _ Hinv) in Hx. injection Hx as <-.
    apply SurdFacts.le_spec. simpl. lra.
  - destruct (inv_dom _ Hinv current) as [->|[prev Hprev]]; [eauto|contradiction|].
    rewrite Hprev.
    destruct (inv_from _ Hinv _ _ Hprev) as (Hnbr & xm & xn & Hxm & Hxn & L).
    rewrite Hx in Hxn. injection Hxn as <-.
    pose proof Hnbr as (l & Hl & Hin).
    destruct (get_neighbors_any _ _ _ _ Hl Hin) as (Hadj & _ & _).
    pose proof (toR_move_cost _ _ Hadj) as Hw.
    assert (Hlt : Surd.lt xm x) by surd.
    pose proof (rank_lt _ _ (inv_small _ Hinv _ _ Hxm) Hlt) as Hrank.
    destruct (IH prev xm (acc ++ [current]) Hxm) as [[Hout Hle]|(q & Hq & Hpath & Hcost)].
    + left. split; [exact Hout|lia].
    + right. exists (current :: q). rewrite Hq, <- app_assoc. split; [reflexivity|].
      change ((current :: q) ++ [start]) with (current :: (q ++ [start])).
      rewrite reverse_cons. split.
      * eapply chain_snoc; eassumption.
      * apply SurdFacts.le_spec.
        rewrite (toR_path_cost_snoc _ _ _ _ _ Hpath). surd.
Qed.
End Search.

(** ** More fuel changes nothing once a loop has ended *)

Lemma search_fuel_S push grid goal fuel st :
  search push grid goal fuel st <> OutOfFuel ->
  search push grid goal (S fuel) st = search push grid goal fuel st.
Proof.
  revert st. induction fuel as [|fuel IH]; intros st H; [contradiction|].
  change (search push grid goal (S (S fuel)) st)
    with (match heappop (open_set st) with
          | None => Return st
          | Some ((_, current_cost, current), rest) =>
              let st' := State rest (came_from st) (cost_so_far st) in
              if decide (current = goal) then Return st'
              else
                neighbors ← get_neighbors current grid;
                search push grid goal (S fuel)
                       (foldl (relax push goal current current_cost) st' neighbors)
          end).
  simpl in *. destruct (heappop (open_set st)) as [[[[p c] n] rest]|]; [|reflexivity].
  destruct (decide (n = goal)); [reflexivity|].
  destruct (get_neighbors n grid) as [ns| |]; simpl in *; try reflexivity.
  apply IH, H.
Qed.

Lemma search_fuel_mono push grid goal fuel fuel' st :
  (fuel <= fuel')%nat ->
  search push grid goal fuel st <> OutOfFuel ->
  search push grid goal fuel' st = search push grid goal fuel st.
Proof.
  intros Hle H. induction Hle as [|fuel' Hle IH]; [reflexivity|].
  rewrite search_fuel_S; [exact IH|]. rewrite IH. exact H.
Qed.

Lemma reconstruct_fuel_S fuel cf start current path :
  reconstruct fuel cf start current path <> OutOfFuel ->
  reconstruct (S fuel) cf start current path = reconstruct fuel cf start current path.
Proof.
  revert current path. induction fuel as [|fuel IH]; intros current path H; [contradiction|].
  change (reconstruct (S (S fuel)) cf start current path)
    with (if decide (current = start) then Return path
          else match cf !! current with
               | None => Raise KeyError
               | Some prev => reconstruct (S fuel) cf start prev (path ++ [current])
               end).
  simpl in *. destruct (decide (current = start)); [reflexivity|].
  destruct (cf !! current) as [prev|]; [|reflexivity].
  apply IH, H.
Qed.

Lemma reconstruct_fuel_mono fuel fuel' cf start current path :
  (fuel <= fuel')%nat ->
  reconstruct fuel cf start current path <> OutOfFuel ->
  reconstruct fuel' cf start current path = reconstruct fuel cf start current path.
Proof.
  intros Hle H. induction Hle as [|fuel' Hle IH]; [reflexivity|].
  rewrite reconstruct_fuel_S; [exact IH|]. rewrite IH. exact H.
Qed.

Lemma astar_fuel_mono fuel fuel' start goal grid :
  (fuel <= fuel')%nat ->
  astar fuel start goal grid <> OutOfFuel ->
  astar fuel' start goal grid = astar fuel start goal grid.
Proof.
  unfold astar, astar_with. intros Hle H.
  destruct (search heappush grid goal fuel (initial start)) as [st| |] eqn:Hs;
    simpl in H; try contradiction.
  - rewrite (search_fuel_mono _ _ _ fuel fuel') by (rewrite ?Hs; auto; discriminate).
    rewrite Hs. simpl.
    destruct (came_from st !! goal); [|reflexivity].
    destruct (reconstruct fuel (came_from st) start goal []) as [q| |] eqn:Hr;
      simpl in H; try contradiction.
    + rewrite (reconstruct_fuel_mono fuel fuel') by (rewrite ?Hr; auto; discriminate).
      rewrite Hr. reflexivity.
    + rewrite (reconstruct_fuel_mono fuel fuel') by (rewrite ?Hr; auto; discriminate).
      rewrite Hr. reflexivity.
  - rewrite (search_fuel_mono _ _ _ fuel fuel') by (rewrite ?Hs; auto; discriminate).
    rewrite Hs. reflexivity.
Qed.

(** ** What [astar] does *)

(** The outcomes of [astar], with the final state of the search. *)
Lemma astar_cases grid start goal fuel :
  (astar fuel start goal grid = OutOfFuel /\ (fuel < fuel_bound grid)%nat)
  \/ (astar fuel start goal grid = Raise IndexError
      /\ get_neighbors start grid = Raise IndexError)
  \/ exists st,
       search heappush grid goal fuel (initial start) = Return st
       /\ inv0 grid start goal st /\ optimal grid start goal st
       /\ ((came_from st !! goal = None /\ astar fuel start goal grid = Return None)
           \/ exists path x,
                astar fuel start goal grid = Return (Some path)
                /\ is_Some (came_from st !! goal)
                /\ cost_so_far st !! goal = Some x
                /\ legal_path grid start goal path
                /\ Surd.le (path_cost path) x).
Proof.
  unfold astar, astar_with.
  pose proof (measure_initial grid start) as Hm0.
  destruct (search_spec grid start goal fuel (initial start) (initial_inv grid start goal))
    as [[Hout Hle]|[(st & Hret & Hinv & Hopt)|[Hraise Hn]]].
  - left. rewrite Hout. split; [reflexivity|lia].
  - rewrite Hret. simpl. destruct (came_from st !! goal) as [m|] eqn:Hcf.
    + destruct (inv_from _ _ _ _ Hinv _ _ Hcf) as (_ & xm & x & _ & Hx & _).
      destruct (reconstruct_spec grid start goal st Hinv fuel goal x [] Hx)
        as [[Hout Hle]|(q & Hq & Hpath & Hcost)].
      * left. rewrite Hout. split; [reflexivity|].
        pose proof (rank_bound grid x). unfold fuel_bound, cell_count. lia.
      * right. right. exists st. split; [reflexivity|]. split; [exact Hinv|].
        split; [exact Hopt|]. right. rewrite Hq. simpl.
        exists (reverse (q ++ [start])), x. rewrite Hcf. eauto 10.
    + right. right. exists st. split; [reflexivity|]. split; [exact Hinv|].
      split; [exact Hopt|]. left. split; [exact Hcf|reflexivity].
  - right. left. rewrite Hraise. split; [reflexivity|exact Hn].
Qed.








(** C5. When no legal path leads from an in-bounds start to the goal,
    [astar] returns the no-path signal [None]: a normal return, not an
    exception, and not an empty path.  This covers the valid queries with
    an unreachable goal, where the start differs from the goal. *)
Theorem astar_unreachable (grid : ndarray) (start goal : cell) (fuel : nat) :
  in_bounds grid start ->
  (forall p, ~ legal_path grid start goal p) ->
  (fuel_bound grid <= fuel)%nat ->
  astar fuel start goal grid = Return None
  /\ astar fuel start goal grid <> Return (Some []).
Proof.
  intros Hin Hno Hfuel.
  assert (H : astar fuel start goal grid = Return None).
  { destruct (astar_cases grid start goal fuel)
      as [[_ Hlt]|[[_ Hn]|(st & _ & _ & _ & [[_ Hr]|(path & x & _ & _ & _ & Hp & _)])]].
    - lia.
    - destruct start as [x y]. rewrite (get_neighbors_in_bounds _ _ _ Hin) in Hn.
      discriminate.
    - exact Hr.
    - destruct (Hno _ Hp). }
  split; [exact H|]. rewrite H. discriminate.
Qed.

Lemma astar_unreachable_witness :
  in_bounds (of_rows [[0;1;0]]) (0, 0)
  /\ (forall p, ~ legal_path (of_rows [[0;1;0]]) (0, 0) (0, 2) p)
  /\ astar 100 (0, 0) (0, 2) (of_rows [[0;1;0]]) = Return None.
Proof.
  assert (Hin : in_bounds (of_rows [[0;1;0]]) (0, 0)) by (unfold in_bounds; simpl; lia).
  assert (Hno : forall p, ~ legal_path (of_rows [[0;1;0]]) (0, 0) (0, 2) p).
  { intros p Hp. inversion Hp as [|a b c q (l & Hl & Hb) Hq]; subst.
    vm_compute in Hl. injection Hl as <-. apply elem_of_nil in Hb. exact Hb. }
  assert (Hfuel : Nat.le (fuel_bound (of_rows [[0;1;0]])) 100) by (vm_compute; lia).
  split; [exact Hin|]. split; [exact Hno|].
  exact (proj1 (astar_unreachable _ _ _ _ Hin Hno Hfuel)).
Defined.

(** C3, as the code has it.  For a query whose start is its goal, [astar]
    returns the no-path signal on every grid and for every cell, although
    the one-cell sequence is a path from the cell to itself, of cost 0: the
    single-element path of the spec is never returned. *)
Theorem astar_start_is_goal (fuel : nat) (c : cell) (grid : ndarray) :
  astar (S fuel) c c grid = Return None
  /\ legal_path grid c c [c]
  /\ path_cost [c] = Surd.zero.
Proof.
  split; [apply astar_same_cell|]. split; [apply chain_one|reflexivity].
Qed.

(** ** Queries that the spec calls invalid *)

(** C4 fails.  In the one-row grid [[1, 0]] a start on the obstacle is
    searched from like any other cell and a path is returned; a goal on the
    obstacle gives the plain no-path signal.  No error is raised in either
    query. *)
Lemma astar_invalid_query_counterexample :
  invalid_query (of_rows [[1;0]]) (0, 0) (0, 1)
  /\ (forall fuel, (2 <= fuel)%nat ->
        astar fuel (0, 0) (0, 1) (of_rows [[1;0]]) = Return (Some [(0, 0); (0, 1)]))
  /\ invalid_query (of_rows [[1;0]]) (0, 1) (0, 0)
  /\ (forall fuel, (2 <= fuel)%nat ->
        astar fuel (0, 1) (0, 0) (of_rows [[1;0]]) = Return None).
Proof.
  split; [right; right; left; reflexivity|].
  split; [intros fuel Hf; rewrite (astar_fuel_mono 2 fuel) by (auto; discriminate);
          reflexivity|].
  split; [right; right; right; reflexivity|].
  intros fuel Hf. rewrite (astar_fuel_mono 2 fuel) by (auto; discriminate). reflexivity.
Qed.

(** C4, amended.  [astar] has no validation and no error of its own.  From
    an in-bounds start, a goal that lies outside the grid or on a cell
    that is not free is answered by [None], the value that also signals
    that no path exists. *)
Theorem astar_invalid_goal (grid : ndarray) (start goal : cell) (fuel : nat) :
  in_bounds grid start ->
  ~ in_bounds grid goal \/ occupancy grid goal <> 0 ->
  (fuel_bound grid <= fuel)%nat ->
  astar fuel start goal grid = Return None.
Proof.
  intros Hin Hgoal Hfuel.
  destruct (astar_cases grid start goal fuel)
    as [[_ Hlt]|[[_ Hn]|(st & _ & Hinv & _ & [[_ Hr]|(path & x & _ & [m Hm] & _)])]].
  - lia.
  - destruct start as [x y]. rewrite (get_neighbors_in_bounds _ _ _ Hin) in Hn.
    discriminate.
  - exact Hr.
  - destruct (inv_from _ _ _ _ Hinv _ _ Hm) as ((l & Hl & Hg) & _).
    destruct (get_neighbors_any _ _ _ _ Hl Hg) as (_ & Hb & Hocc). tauto.
Qed.

Lemma astar_invalid_goal_witness :
  in_bounds (of_rows [[0;0]; [0;1]]) (0, 0)
  /\ occupancy (of_rows [[0;0]; [0;1]]) (1, 1) <> 0
  /\ astar 200 (0, 0) (1, 1) (of_rows [[0;0]; [0;1]]) = Return None
  /\ astar 200 (0, 0) (5, 5) (of_rows [[0;0]; [0;1]]) = Return None.
Proof.
  assert (Hin : in_bounds (of_rows [[0;0]; [0;1]]) (0, 0)) by (unfold in_bounds; simpl; lia).
  assert (Hocc : occupancy (of_rows [[0;0]; [0;1]]) (1, 1) <> 0) by discriminate.
  assert (Hout : ~ in_bounds (of_rows [[0;0]; [0;1]]) (5, 5))
    by (unfold in_bounds; simpl; lia).
  assert (Hfuel : Nat.le (fuel_bound (of_rows [[0;0]; [0;1]])) 200)
    by (vm_compute; lia).
  split; [exact Hin|]. split; [exact Hocc|]. split.
  - exact (astar_invalid_goal _ _ _ _ Hin (or_intror Hocc) Hfuel).
  - exact (astar_invalid_goal _ _ _ _ Hin (or_introl Hout) Hfuel).
Defined.

(** ** Optimality *)



(** * Further properties of the code *)

(** ** [create_parking_lot] *)

Lemma norm_index_negative n i :
  - Z.of_nat n <= i < 0 -> norm_index n i = Some (Z.to_nat (i + Z.of_nat n)).
Proof.
  intros H. unfold norm_index.
  destruct (Z.leb_spec 0 i); [lia|]. simpl.
  destruct (Z.leb_spec (- Z.of_nat n) i); [|lia].
  destruct (Z.ltb_spec i 0); [|lia]. reflexivity.
Qed.

Lemma norm_index_outside n i :
  i < - Z.of_nat n \/ Z.of_nat n <= i -> norm_index n i = None.
Proof.
  intros H. unfold norm_index.
  destruct (Z.leb_spec 0 i); destruct (Z.ltb_spec i (Z.of_nat n));
    destruct (Z.leb_spec (- Z.of_nat n) i); destruct (Z.ltb_spec i 0);
    simpl; try reflexivity; lia.
Qed.

(** The slice [2:8:2] selects the columns 2, 4 and 6. *)
Lemma in_slice_barriers n j :
  in_slice 2 8 2 n j = ((j <? n) && ((j =? 2) || (j =? 4) || (j =? 6)))%nat.
Proof.
  unfold in_slice.
  assert (Hj : (j = 0 \/ j = 1 \/ j = 2 \/ j = 3 \/ j = 4 \/ j = 5 \/ j = 6
                \/ j = 7 \/ 8 <= j)%nat) by lia.
  destruct Hj as [->|[->|[->|[->|[->|[->|[->|[->|Hj]]]]]]]];
    try (simpl; destruct (_ <? n)%nat; reflexivity).
  destruct (Nat.ltb_spec j 8); [lia|].
  destruct (Nat.eqb_spec j 2); [lia|]. destruct (Nat.eqb_spec j 4); [lia|].
  destruct (Nat.eqb_spec j 6); [lia|].
  rewrite !andb_false_r. reflexivity.
Qed.

Lemma create_parking_lot_cases rows cols :
  ((rows <= 8 \/ cols = 0)%nat /\ create_parking_lot rows cols = Raise IndexError)
  \/ ((9 <= rows /\ 1 <= cols)%nat
      /\ exists g, create_parking_lot rows cols = Return g
           /\ shape0 g = rows /\ shape1 g = cols
           /\ forall i j, (i < rows)%nat -> (j < cols)%nat ->
                item g i j = lot_value rows cols i j).
Proof.
  unfold create_parking_lot, setitem_row, setitem.
  cbn [for_in shape0 shape1 setitem_block np_zeros].
  destruct (le_lt_dec rows 1) as [H1|H1].
  { left. split; [lia|]. rewrite norm_index_outside by lia. reflexivity. }
  rewrite (norm_index_in_range rows 1) by lia. cbn [mbind outcome_bind shape0 shape1].
  rewrite (norm_index_in_range rows 1) by lia. cbn [mbind outcome_bind shape0 shape1].
  destruct (le_lt_dec rows 8) as [H8|H8].
  { left. split; [lia|]. rewrite norm_index_outside by lia. reflexivity. }
  rewrite (norm_index_in_range rows 8) by lia. cbn [mbind outcome_bind shape0 shape1].
  rewrite (norm_index_in_range rows 8) by lia. cbn [mbind outcome_bind shape0 shape1].
  rewrite (norm_index_in_range rows 0) by lia.
  destruct (Nat.eq_dec cols 0%nat) as [->|Hc].
  { left. split; [lia|]. reflexivity. }
  rewrite (norm_index_in_range cols 0) by lia. cbn [mbind outcome_bind shape0 shape1].
  rewrite (norm_index_negative rows (-1)), (norm_index_negative cols (-1)) by lia.
  right. split; [lia|]. eexists. split; [reflexivity|].
  split; [reflexivity|]. split; [reflexivity|].
  intros i j Hi Hj. unfold lot_value, setitem_block, np_zeros. cbn [item shape0 shape1].
  rewrite !in_slice_barriers. unfold in_slice.
  replace (Z.to_nat (-1 + Z.of_nat rows)) with (rows - 1)%nat by lia.
  replace (Z.to_nat (-1 + Z.of_nat cols)) with (cols - 1)%nat by lia.
  change (Z.to_nat 0) with 0%nat. change (Z.to_nat 1) with 1%nat.
  change (Z.to_nat 8) with 8%nat. rewrite !Nat.mod_1_r.
  assert (Hi' : (i = 0 \/ i = 1 \/ i = 2 \/ i = 3 \/ i = 4 \/ i = 5 \/ i = 6
                 \/ i = 7 \/ i = 8 \/ 9 <= i)%nat) by lia.
  assert (Hj' : (j = 0 \/ j = 1 \/ j = 2 \/ j = 3 \/ j = 4 \/ j = 5 \/ j = 6
                 \/ j = 7 \/ 8 <= j)%nat) by lia.
  destruct Hi' as [Hi'|[Hi'|[Hi'|[Hi'|[Hi'|[Hi'|[Hi'|[Hi'|[Hi'|Hi']]]]]]]]];
    destruct Hj' as [Hj'|[Hj'|[Hj'|[Hj'|[Hj'|[Hj'|[Hj'|[Hj'|Hj']]]]]]]];
    repeat match goal with
    | |- context [(?a <=? ?b)%nat] => destruct (Nat.leb_spec a b); try lia
    | |- context [(?a <? ?b)%nat] => destruct (Nat.ltb_spec a b); try lia
    | |- context [(?a =? ?b)%nat] => destruct (Nat.eqb_spec a b); try lia
    end; reflexivity.
Qed.

(** X1. [create_parking_lot] raises [IndexError] exactly when there are
    fewer than 9 rows, the row index 8 of the second parking row being
    out of range, or no column, the entrance [grid[0, 0]] being out of
    range; otherwise it returns a grid of the shape asked for. *)
Theorem create_parking_lot_raises (rows cols : nat) :
  (create_parking_lot rows cols = Raise IndexError <-> (rows <= 8 \/ cols = 0)%nat)
  /\ ((9 <= rows /\ 1 <= cols)%nat ->
      exists g, create_parking_lot rows cols = Return g
                /\ shape0 g = rows /\ shape1 g = cols).
Proof.
  destruct (create_parking_lot_cases rows cols)
    as [[Hs Hr]|[Hs (g & Hr & H0 & H1 & _)]]; rewrite Hr.
  - split; [tauto|lia].
  - split; [split; [discriminate|lia]|]. intros _. exists g. auto.
Qed.

Lemma create_parking_lot_raises_witness :
  create_parking_lot 8 10 = Raise IndexError
  /\ create_parking_lot 9 0 = Raise IndexError
  /\ exists g, create_parking_lot 9 1 = Return g /\ shape0 g = 9%nat /\ shape1 g = 1%nat.
Proof.
  split; [apply (proj1 (create_parking_lot_raises 8 10)); left; lia|].
  split; [apply (proj1 (create_parking_lot_raises 9 0)); right; reflexivity|].
  apply (proj2 (create_parking_lot_raises 9 1)). lia.
Defined.

(** X2. In the grid that [create_parking_lot] returns every cell holds 0
    or 1; the cells that hold 1 are the central lane, rows 3 to 6 of
    columns 4 and 5, and the barriers, columns 2, 4 and 6 of rows 1 and 8,
    as far as they fit in the grid, except the last cell of the last row:
    the entrance and the VIP spot are free even where a barrier would
    stand. *)
Theorem create_parking_lot_layout (rows cols : nat) (g : ndarray) (i j : nat) :
  create_parking_lot rows cols = Return g ->
  (i < rows)%nat -> (j < cols)%nat ->
  (item g i j = 0 \/ item g i j = 1)
  /\ (item g i j = 1 <->
      ((3 <= i < 7 /\ 4 <= j < 6) \/ ((i = 1 \/ i = 8) /\ (j = 2 \/ j = 4 \/ j = 6)))%nat
      /\ ~ (i = rows - 1 /\ j = cols - 1)%nat)
  /\ item g 0 0 = 0 /\ item g (rows - 1) (cols - 1) = 0.
Proof.
  intros Hg Hi Hj.
  destruct (create_parking_lot_cases rows cols)
    as [[_ Hr]|[Hs (g' & Hr & _ & _ & Hitem)]]; rewrite Hr in Hg; [discriminate|].
  injection Hg as <-.
  rewrite (Hitem i j Hi Hj), (Hitem 0%nat 0%nat), (Hitem (rows - 1)%nat (cols - 1)%nat)
    by lia.
  unfold lot_value. rewrite !Nat.eqb_refl.
  split; [|split; [|split]].
  - repeat match goal with
    | |- context [if ?b then _ else _] => destruct b
    end; auto.
  - repeat match goal with
    | |- context [if ?b then _ else _] => destruct b eqn:?
    end;
    repeat match goal with
    | E : _ = true |- _ =>
        rewrite ?andb_true_iff, ?orb_true_iff, ?Nat.eqb_eq, ?Nat.leb_le, ?Nat.ltb_lt in E
    | E : _ = false |- _ =>
        rewrite ?andb_false_iff, ?orb_false_iff, ?andb_false_iff, ?orb_false_iff,
          ?Nat.eqb_neq, ?Nat.leb_gt, ?Nat.ltb_ge in E
    end;
    (split; [intros HH; try discriminate; lia|intros HH; try reflexivity; lia]).
  - reflexivity.
  - simpl. destruct (_ && _); reflexivity.
Qed.

Lemma create_parking_lot_layout_witness :
  exists g, create_parking_lot 9 7 = Return g
            /\ item g 8 6 = 0 /\ item g 8 4 = 1 /\ item g 3 5 = 1.
Proof.
  destruct (create_parking_lot_cases 9 7) as [[Hs _]|[_ (g & Hg & _)]]; [lia|].
  exists g. split; [exact Hg|].
  pose proof (create_parking_lot_layout 9 7 g 8 6 Hg) as H86.
  pose proof (create_parking_lot_layout 9 7 g 8 4 Hg) as H84.
  pose proof (create_parking_lot_layout 9 7 g 3 5 Hg) as H35.
  split; [apply H86; lia|].
  split; [apply H84; lia|apply H35; lia].
Defined.

(** ** The path that [astar] returns *)

(** The state behind a returned path. *)
Lemma astar_some_inv grid start goal fuel path :
  astar fuel start goal grid = Return (Some path) ->
  exists st x q,
    inv0 grid start goal st
    /\ cost_so_far st !! goal = Some x
    /\ reconstruct fuel (came_from st) start goal [] = Return q
    /\ path = reverse (q ++ [start])
    /\ legal_path grid start goal path.
Proof.
  intros H.
  destruct (astar_cases grid start goal fuel)
    as [[Hout _]|[[Hraise _]|(st & Hs & Hinv & _ & [[_ Hr]|(path' & x & Hr & _ & Hx & Hp & _)])]];
    rewrite H in *; try discriminate.
  injection Hr as <-. exists st, x.
  unfold astar, astar_with in H. rewrite Hs in H. simpl in H.
  destruct (came_from st !! goal); [|discriminate].
  destruct (reconstruct fuel (came_from st) start goal []) as [q| |]; try discriminate.
  simpl in H. injection H as H. exists q. auto.
Qed.

Lemma astar_some_distinct grid start goal fuel path :
  astar fuel start goal grid = Return (Some path) -> start <> goal.
Proof.
  intros H ->. destruct fuel as [|fuel]; [discriminate|].
  rewrite astar_same_cell in H. discriminate.
Qed.







(** A legal path to a different cell is found, and a cheapest one. *)
Lemma astar_reachable grid start goal fuel P0 :
  (fuel_bound grid <= fuel)%nat ->
  legal_path grid start goal P0 -> start <> goal ->
  exists path,
    astar fuel start goal grid = Return (Some path)
    /\ legal_path grid start goal path
    /\ forall P, legal_path grid start goal P ->
         Surd.le (path_cost path) (path_cost P).
Proof.
  intros Hfuel HP0 Hne.
  destruct (astar_cases grid start goal fuel)
    as [[_ Hlt]|[[_ Hn]|(st & _ & Hinv & Hopt & [[Hcf _]|(path & x & Hr & _ & Hx & Hp & Hc)])]].
  - lia.
  - destruct (chain_uncons _ _ _ _ HP0 Hne) as (a' & q & _ & (l & Hl & _) & _).
    rewrite Hn in Hl. discriminate.
  - destruct (Hopt _ HP0) as (x & Hx & _).
    destruct (inv_dom _ _ _ _ Hinv goal) as [->|[m Hm]]; [eauto|contradiction|].
    rewrite Hcf in Hm. discriminate.
  - exists path. split; [exact Hr|]. split; [exact Hp|].
    intros P HP. destruct (Hopt _ HP) as (x' & Hx' & L).
    rewrite Hx in Hx'. injection Hx' as <-. surd.
Qed.

(** X5. With enough fuel [astar] returns a path exactly when the goal
    differs from the start and some legal path leads to it; in every other
    query that does not raise, it returns the no-path signal. *)
Theorem astar_some_iff (grid : ndarray) (start goal : cell) (fuel : nat) :
  (fuel_bound grid <= fuel)%nat ->
  ((exists path, astar fuel start goal grid = Return (Some path))
   <-> (start <> goal /\ exists p, legal_path grid start goal p))
  /\ (astar fuel start goal grid = Return None
      \/ astar fuel start goal grid = Raise IndexError
      \/ exists path, astar fuel start goal grid = Return (Some path)).
Proof.
  intros Hfuel. split.
  - split.
    + intros [path H]. split; [apply (astar_some_distinct _ _ _ _ _ H)|].
      destruct (astar_some_inv _ _ _ _ _ H) as (_ & _ & _ & _ & _ & _ & _ & Hp). eauto.
    + intros [Hne [p Hp]].
      destruct (astar_reachable _ _ _ _ _ Hfuel Hp Hne) as (path & H & _). eauto.
  - destruct (astar_cases grid start goal fuel)
      as [[_ Hlt]|[[Hr _]|(st & _ & _ & _ & [[_ Hr]|(path & x & Hr & _)])]];
      [lia|auto|auto|eauto].
Qed.

Lemma astar_some_iff_witness :
  Nat.le (fuel_bound (of_rows [[0;1;0]])) 100
  /\ ~ exists path, astar 100 (0, 0) (0, 2) (of_rows [[0;1;0]]) = Return (Some path).
Proof.
  assert (Hfuel : Nat.le (fuel_bound (of_rows [[0;1;0]])) 100) by (vm_compute; lia).
  split; [exact Hfuel|].
  intros H. apply (proj1 (astar_some_iff _ _ _ _ Hfuel)) in H.
  destruct H as [_ [p Hp]].
  inversion Hp as [|a b c q (l & Hl & Hb) Hq]; subst.
  vm_compute in Hl. injection Hl as <-. apply elem_of_nil in Hb. exact Hb.
Defined.

(** ** The octile distance *)









(** ** More on [get_neighbors] *)

Lemma neighbor_of_sym grid a b :
  in_bounds grid a -> occupancy grid a = 0 ->
  neighbor_of grid a b -> neighbor_of grid b a.
Proof.
  intros Ha Hfree (l & Hl & Hb). destruct a as [x y].
  rewrite (get_neighbors_in_bounds _ _ _ Ha) in Hl. injection Hl as <-.
  apply neighbors_spec_elem in Hb.
  destruct Hb as (dx & dy & Hdx & Hdy & -> & (Hnz & Hin & Hocc & Hcorner)).
  exists (neighbors_spec grid (x + dx) (y + dy)).
  split; [apply get_neighbors_in_bounds, Hin|].
  apply neighbors_spec_elem. exists (- dx), (- dy).
  split; [lia|]. split; [lia|]. split; [f_equal; lia|]. unfold legal_step.
  replace (x + dx + - dx) with x by lia. replace (y + dy + - dy) with y by lia.
  split; [lia|]. split; [exact Ha|]. split; [exact Hfree|].
  intros H1 H2. destruct Hcorner as [C1 C2]; [lia|lia|]. split; assumption.
Qed.

(** X9. Between in-bounds cells the adjacency is symmetric as soon as the
    cell moved from is free: if [b] is a neighbour of the free cell [a],
    then [a] is a neighbour of [b]. *)
Theorem get_neighbors_symmetric (grid : ndarray) (a b : cell) :
  in_bounds grid a -> occupancy grid a = 0 ->
  neighbor_of grid a b -> neighbor_of grid b a.
Proof.
  apply neighbor_of_sym.
Qed.

Lemma get_neighbors_symmetric_witness :
  neighbor_of (of_rows [[0;1]; [0;0]]) (0, 0) (1, 0)
  /\ neighbor_of (of_rows [[0;1]; [0;0]]) (1, 0) (0, 0).
Proof.
  assert (H : neighbor_of (of_rows [[0;1]; [0;0]]) (0, 0) (1, 0)).
  { exists [(1, 0)]. split; [reflexivity|left]. }
  split; [exact H|].
  apply (get_neighbors_symmetric _ (0, 0) (1, 0)); [unfold in_bounds; simpl; lia|reflexivity|exact H].
Defined.


Lemma for_each_sublist grid x y ds acc l :
  result (for_each (visit grid x y) acc ds) = Return l ->
  exists l', l = acc ++ l'
    /\ l' `sublist_of`
         ((fun d : Z * Z => (x + d.1, y + d.2))
            <$> List.filter (fun d : Z * Z => negb ((d.1 =? 0) && (d.2 =? 0))) ds).
Proof.
  revert acc. induction ds as [|[dx dy] ds IH]; intros acc H.
  - simpl in H. injection H as <-. exists []. rewrite app_nil_r.
    split; [reflexivity|constructor].
  - rewrite for_each_cons in H. apply io_bind_inv in H. destruct H as (acc' & Hv & H).
    destruct (IH _ H) as (l' & -> & Hsub). apply visit_any in Hv.
    destruct Hv as [->|(-> & Hnz & _)].
    + exists l'. split; [reflexivity|]. simpl.
      destruct (negb ((dx =? 0) && (dy =? 0))); [apply sublist_cons|]; exact Hsub.
    + exists ((x + dx, y + dy) :: l'). rewrite <- app_assoc. split; [reflexivity|].
      simpl. destruct (Z.eqb_spec dx 0); destruct (Z.eqb_spec dy 0); simpl;
        try (apply sublist_skip; exact Hsub). tauto.
Qed.

Lemma StronglySorted_sublist {A : Type} (R : A -> A -> Prop) (l1 l2 : list A) :
  l1 `sublist_of` l2 -> StronglySorted R l2 -> StronglySorted R l1.
Proof.
  intros Hsub. induction Hsub as [|x l1 l2 Hsub IH|x l1 l2 Hsub IH]; intros Hs.
  - constructor.
  - apply StronglySorted_inv in Hs. destruct Hs as [Hs Hall]. constructor; [auto|].
    apply List.Forall_forall. intros y Hy. rewrite List.Forall_forall in Hall.
    apply Hall. apply list_elem_of_In. apply (elem_of_sublist l1 l2); [|exact Hsub].
    apply list_elem_of_In. exact Hy.
  - apply StronglySorted_inv in Hs. apply IH, Hs.
Qed.

Lemma around_sorted x y : StronglySorted (fun a b => cell_ltb a b = true) (around x y).
Proof.
  unfold around. simpl.
  repeat (constructor; [|repeat (constructor; [unfold cell_ltb; simpl;
    rewrite orb_true_iff, andb_true_iff, !Z.ltb_lt, Z.eqb_eq; lia|]); constructor]).
  constructor.
Qed.

(** X10. Whatever the cell, the neighbours come in the order of Python's
    tuples, by row and then by column, each one strictly before the next;
    there are at most eight, and the cell itself is not among them. *)
Theorem get_neighbors_sorted (grid : ndarray) (node : cell) (l : list cell) :
  get_neighbors node grid = Return l ->
  StronglySorted (fun a b => cell_ltb a b = true) l
  /\ (length l <= 8)%nat /\ ~ node ∈ l.
Proof.
  destruct node as [x y]. intros H.
  destruct (for_each_sublist grid x y offsets [] l H) as (l' & -> & Hsub). simpl.
  fold (around x y) in Hsub. split; [|split].
  - apply (StronglySorted_sublist _ _ _ Hsub), around_sorted.
  - apply sublist_length in Hsub. exact Hsub.
  - intros Hin. destruct (get_neighbors_any _ _ _ _ H Hin) as ((_ & _ & Hne) & _).
    congruence.
Qed.

Lemma get_neighbors_sorted_witness :
  get_neighbors (1, 1) (of_rows [[0;1;0]; [0;0;0]; [0;0;1]])
  = Return [(1,0); (1,2); (2,0); (2,1)]
  /\ StronglySorted (fun a b => cell_ltb a b = true) [(1,0); (1,2); (2,0); (2,1)].
Proof.
  split; [reflexivity|].
  exact (proj1 (get_neighbors_sorted (of_rows [[0;1;0]; [0;0;0]; [0;0;1]]) (1, 1) _ eq_refl)).
Defined.

(** ** Cells beside the grid *)

Lemma for_each_raises grid x y ds acc :
  (exists d, d ∈ ds /\ forall acc', result (visit grid x y acc' d) = Raise IndexError) ->
  result (for_each (visit grid x y) acc ds) = Raise IndexError.
Proof.
  revert acc. induction ds as [|d ds IH]; intros acc (d0 & Hd0 & Hraise).
  - apply elem_of_nil in Hd0. contradiction.
  - rewrite for_each_cons.
    destruct (visit_outcome grid x y acc d) as [[l Hl]|Hr].
    + destruct (io_bind_return _ (fun acc' => for_each (visit grid x y) acc' ds) _ Hl)
        as [-> _].
      apply elem_of_cons in Hd0. destruct Hd0 as [->|Hd0].
      * rewrite Hraise in Hl. discriminate.
      * apply IH. eauto.
    + unfold mbind, io_bind. rewrite Hr. reflexivity.
Qed.

Lemma for_each_returns grid x y ds acc :
  (forall d acc', d ∈ ds -> exists l, result (visit grid x y acc' d) = Return l) ->
  exists l, result (for_each (visit grid x y) acc ds) = Return l.
Proof.
  revert acc. induction ds as [|d ds IH]; intros acc H.
  - eexists. reflexivity.
  - rewrite for_each_cons. destruct (H d acc) as [l Hl]; [left|].
    destruct (io_bind_return _ (fun acc' => for_each (visit grid x y) acc' ds) _ Hl)
      as [-> _].
    apply IH. intros d' acc' Hd'. apply H. right. exact Hd'.
Qed.

Lemma visit_right_of_grid grid x dx acc :
  0 <= x + dx < Z.of_nat (shape0 grid) -> (1 <= shape1 grid)%nat -> dx <> 0 ->
  result (visit grid x (Z.of_nat (shape1 grid)) acc (dx, -1)) = Raise IndexError.
Proof.
  intros Hx Hc Hdx. unfold visit, getitem.
  destruct (Z.eqb_spec dx 0); [contradiction|]. simpl.
  destruct (Z.leb_spec 0 (x + dx)); [|lia].
  destruct (Z.ltb_spec (x + dx) (Z.of_nat (shape0 grid))); [|lia].
  destruct (Z.leb_spec 0 (Z.of_nat (shape1 grid) + -1)); [|lia].
  destruct (Z.ltb_spec (Z.of_nat (shape1 grid) + -1) (Z.of_nat (shape1 grid))); [|lia].
  simpl. unfold mbind, io_bind. simpl.
  rewrite (norm_index_outside (shape1 grid) (Z.of_nat (shape1 grid))) by lia.
  destruct (norm_index (shape0 grid) (x + dx)); reflexivity.
Qed.

Lemma visit_left_of_grid grid x acc d :
  0 <= x < Z.of_nat (shape0 grid) -> d ∈ offsets ->
  exists l, result (visit grid x (-1) acc d) = Return l.
Proof.
  intros Hx Hd. destruct d as [dx dy]. apply offsets_spec in Hd. unfold visit, getitem.
  destruct (dx =? 0) eqn:Edx; destruct (dy =? 0) eqn:Edy;
    destruct (Z.leb_spec 0 (x + dx)); destruct (Z.ltb_spec (x + dx) (Z.of_nat (shape0 grid)));
    destruct (Z.leb_spec 0 (-1 + dy)); destruct (Z.ltb_spec (-1 + dy) (Z.of_nat (shape1 grid)));
    simpl; try (eexists; reflexivity);
    unfold mbind, io_bind; simpl;
    rewrite ?(norm_index_in_range (shape0 grid) (x + dx)),
            ?(norm_index_in_range (shape1 grid) (-1 + dy)),
            ?(norm_index_in_range (shape0 grid) x),
            ?(norm_index_negative (shape1 grid) (-1)) by lia; simpl.
  all: repeat match goal with
       | |- context [item ?g ?a ?b =? ?k] => destruct (item g a b =? k); simpl
       end.
  all: eexists; reflexivity.
Qed.

(** X11. Outside the grid [get_neighbors] is not uniform.  For a cell one
    column to the right of a grid of at least two rows it raises
    [IndexError], on the pass-through read of a diagonal step; for a cell
    one column to the left it raises nothing, the column index -1 being
    read as the last column. *)
Theorem get_neighbors_beside_grid (grid : ndarray) (x : Z) :
  0 <= x < Z.of_nat (shape0 grid) ->
  (2 <= shape0 grid)%nat -> (1 <= shape1 grid)%nat ->
  get_neighbors (x, Z.of_nat (shape1 grid)) grid = Raise IndexError
  /\ exists l, get_neighbors (x, -1) grid = Return l.
Proof.
  intros Hx Hr Hc. unfold get_neighbors, get_neighbors_io. split.
  - apply for_each_raises. destruct (Z.eq_dec x 0) as [->|Hx0].
    + exists (1, -1). split; [apply offsets_spec; lia|].
      intros acc. apply visit_right_of_grid; lia.
    + exists (-1, -1). split; [apply offsets_spec; lia|].
      intros acc. apply visit_right_of_grid; lia.
  - apply for_each_returns. intros d acc Hd. apply visit_left_of_grid; assumption.
Qed.

Lemma get_neighbors_beside_grid_witness :
  get_neighbors (0, 2) (of_rows [[0;0]; [0;0]]) = Raise IndexError
  /\ exists l, get_neighbors (0, -1) (of_rows [[0;0]; [0;0]]) = Return l.
Proof.
  apply (get_neighbors_beside_grid (of_rows [[0;0]; [0;0]]) 0); simpl; lia.
Defined.

(** ** Reversing a path *)





(** ** The script *)









